(** * MacGal: library synchronisation and batch match engine

    A shallow embedding of the catalogue logic of the MacGal front end
    (App.tsx and components/InstancesPage.tsx) and the properties of its
    specification.

    Conventions of the embedding.
    - A JavaScript [number] that holds a count of seconds or an epoch
      timestamp is a [Z]; [undefined] optional fields are [None].
    - A [Record<string, number>] is a [gmap string Z].
    - React state is threaded explicitly; a functional updater
      [setX (prev => ...)] is a function on the state, a handler that
      closes over a rendered value takes that value as an argument.
    - Calls to the Tauri back end ([invoke]) are outcomes supplied by the
      caller (an [option] or a [bool]) and are recorded in an effect log. *)

From Stdlib Require Import ZArith String Ascii List Sorted Permutation Lia OrdersEx.
From stdpp Require Import base option list strings gmap fin_maps sorting pretty.

Set Warnings "-register-all".

Local Open Scope string_scope.
Local Open Scope list_scope.
Local Open Scope Z_scope.

(** ** JavaScript primitives used by the program *)

Module JS.

(** Truthiness of an optional string: [undefined] and [''] are falsy. *)
Definition truthy (s : option string) : bool :=
  match s with
  | Some v => negb (String.eqb v "")
  | None => false
  end.

(** [a || b] on optional strings. *)
Definition or_else (a b : option string) : option string :=
  if truthy a then a else b.

(** [a || d] where [d] is a string literal or a defined string. *)
Definition or_string (a : option string) (d : string) : string :=
  match or_else a (Some d) with
  | Some v => v
  | None => d
  end.

(** [x || 0] on an optional number: [undefined] and [0] are falsy. *)
Definition or_zero (x : option Z) : Z :=
  match x with
  | Some v => if (v =? 0) then 0 else v
  | None => 0
  end.

(** [Array.prototype.sort(comparator)].  For a consistent comparator
    the language fixes the result: the permutation that is sorted and
    keeps elements that compare equal in their order.  It is modelled
    by a stable insertion, [x] going before the first [y] with
    [comparator x y <= 0]; for a comparator that is not consistent the
    language leaves the order to the engine, and only the fact that
    the result is a permutation is used. *)
Section ArraySort.
Context {A : Type} (comparator : A -> A -> Z).

Fixpoint insert (x : A) (l : list A) : list A :=
  match l with
  | [] => [x]
  | y :: l' => if (comparator x y <=? 0) then x :: y :: l' else y :: insert x l'
  end.

Definition sort (l : list A) : list A := foldr insert [] l.

(** [x] may stay in front of [y]. *)
Definition before (x y : A) : Prop := comparator x y <= 0.
End ArraySort.

(** [Map]: keys keep the position of their first insertion, [set] on a
    key that is present overwrites the value in place. *)
Section JSMap.
Context {K V : Type} `{EqDecision K}.

Fixpoint map_set (k : K) (v : V) (m : list (K * V)) : list (K * V) :=
  match m with
  | [] => [(k, v)]
  | (k', v') :: m' =>
      if decide (k = k') then (k, v) :: m' else (k', v') :: map_set k v m'
  end.

Definition map_values (m : list (K * V)) : list V := m.*2.
End JSMap.

(** The tree a JSON text denotes.  [JSON.parse (JSON.stringify v)] is
    taken to return the tree of [v]; the text itself is not modelled. *)
Inductive json : Type :=
| JNull
| JBool (b : bool)
| JNumber (n : Z)
| JString (s : string)
| JArray (items : list json)
| JObject (fields : list (string * json)).


(** Property read [o.key] on a parsed object. *)
Fixpoint field (key : string) (fields : list (string * json)) : option json :=
  match fields with
  | [] => None
  | (k, v) :: rest => if String.eqb key k then Some v else field key rest
  end.

End JS.

(** ** Data model (components/InstancesPage.tsx) *)

Record GameInstance : Type := mkGameInstance {
  id : string;
  name : string;
  info : string;
  bottleName : string;
  executablePath : string;
  backgroundImage : option string;
  lastPlayed : option Z;
  totalPlayTime : option Z;
  playHistory : option (gmap string Z)
}.

(** [Partial<GameInstance>]: every key may be missing. *)
Record PartialGameInstance : Type := mkPartial {
  p_id : option string;
  p_name : option string;
  p_info : option string;
  p_bottleName : option string;
  p_executablePath : option string;
  p_backgroundImage : option string;
  p_lastPlayed : option Z;
  p_totalPlayTime : option Z;
  p_playHistory : option (gmap string Z)
}.

(** [{}] *)
Definition empty_partial : PartialGameInstance :=
  mkPartial None None None None None None None None None.

(** [{ ...instance }] read as a [Partial<GameInstance>]. *)
Definition spread (i : GameInstance) : PartialGameInstance :=
  mkPartial (Some (id i)) (Some (name i)) (Some (info i)) (Some (bottleName i))
            (Some (executablePath i)) (backgroundImage i) (lastPlayed i)
            (totalPlayTime i) (playHistory i).

(** [{ ...i, ...formData }]: every key of [formData] overrides [i]. *)
Definition overlay (i : GameInstance) (formData : PartialGameInstance) : GameInstance :=
  {| id := default (id i) (p_id formData);
     name := default (name i) (p_name formData);
     info := default (info i) (p_info formData);
     bottleName := default (bottleName i) (p_bottleName formData);
     executablePath := default (executablePath i) (p_executablePath formData);
     backgroundImage := from_option Some (backgroundImage i) (p_backgroundImage formData);
     lastPlayed := from_option Some (lastPlayed i) (p_lastPlayed formData);
     totalPlayTime := from_option Some (totalPlayTime i) (p_totalPlayTime formData);
     playHistory := from_option Some (playHistory i) (p_playHistory formData) |}.

(** Sum of all values of a play history. *)
Definition history_sum (h : gmap string Z) : Z :=
  map_fold (fun _ v acc => v + acc) 0 h.

(** ** Serialisation of the catalogue *)

Module Persist.
Import JS.

Definition opt_field {A} (key : string) (enc : A -> json) (o : option A)
  : list (string * json) :=
  match o with
  | Some v => [(key, enc v)]
  | None => []
  end.

Definition history_to_json (h : gmap string Z) : json :=
  JObject ((fun kv => (kv.1, JNumber kv.2)) <$> map_to_list h).

(** The object [JSON.stringify] writes for one instance: [undefined]
    properties are left out. *)
Definition instance_to_json (i : GameInstance) : json :=
  JObject ([("id", JString (id i)); ("name", JString (name i));
            ("info", JString (info i)); ("bottleName", JString (bottleName i));
            ("executablePath", JString (executablePath i))]
           ++ opt_field "backgroundImage" JString (backgroundImage i)
           ++ opt_field "lastPlayed" JNumber (lastPlayed i)
           ++ opt_field "totalPlayTime" JNumber (totalPlayTime i)
           ++ opt_field "playHistory" history_to_json (playHistory i)).

(** [JSON.stringify(list)] as a tree. *)
Definition stringify (l : list GameInstance) : json :=
  JArray (instance_to_json <$> l).

Definition as_string (j : json) : option string :=
  match j with JString s => Some s | _ => None end.

Definition as_number (j : json) : option Z :=
  match j with JNumber n => Some n | _ => None end.

Definition as_history (j : json) : option (gmap string Z) :=
  match j with
  | JObject kvs =>
      list_to_map <$> mapM (fun kv => pair kv.1 <$> as_number kv.2) kvs
  | _ => None
  end.

(** A required property of type [A]. *)
Definition required {A} (key : string) (dec : json -> option A)
    (fields : list (string * json)) : option A :=
  field key fields ≫= dec.

(** An optional property: missing is [undefined], present must have
    type [A]. *)
Definition optional {A} (key : string) (dec : json -> option A)
    (fields : list (string * json)) : option (option A) :=
  match field key fields with
  | None => Some None
  | Some j => Some <$> dec j
  end.

(** A parsed value read at type [GameInstance]; [None] when it does not
    have that type (the program does not check, such a payload is
    outside the typed model). *)
Definition json_to_instance (j : json) : option GameInstance :=
  match j with
  | JObject fs =>
      i ← required "id" as_string fs;
      n ← required "name" as_string fs;
      inf ← required "info" as_string fs;
      b ← required "bottleName" as_string fs;
      e ← required "executablePath" as_string fs;
      bg ← optional "backgroundImage" as_string fs;
      lp ← optional "lastPlayed" as_number fs;
      tp ← optional "totalPlayTime" as_number fs;
      ph ← optional "playHistory" as_history fs;
      Some (mkGameInstance i n inf b e bg lp tp ph)
  | _ => None
  end.

Definition as_instances (items : list json) : option (list GameInstance) :=
  mapM json_to_instance items.
End Persist.

(** ** Application shell (App.tsx): the instance store, the play-session
    listener and the launch coordinator *)

Module App.
Import JS Persist.

Inductive ToastType : Type := success | error | info_toast.

(** What a handler does to the outside, in the order it does it. *)
Inductive Effect : Type :=
| InvokeLoad
| InvokeSave (data : json)
| InvokeLaunch (instanceId bottle_path game_exe crossover_app_path : string)
| Toast (type : ToastType)
| ConsoleError.

Record Config : Type := mkConfig {
  bottlesPath : string;
  crossoverPath : string
}.

(** [instances] is the React state of [AppContent]; [disk] is what the
    persistence collaborator holds, [None] when a read of it fails or is
    not JSON; [effects] is the log, oldest first. *)
Record World : Type := mkWorld {
  instances : list GameInstance;
  disk : option json;
  effects : list Effect
}.

Definition INITIAL_INSTANCES : list GameInstance := [].

Definition log (es : list Effect) (w : World) : World :=
  mkWorld (instances w) (disk w) (effects w ++ es).

Definition setInstances (l : list GameInstance) (w : World) : World :=
  mkWorld l (disk w) (effects w).

(** [invoke("save_instances", { data })]: the write reaches the disk
    when the back end accepts it. *)
Definition save_instances (ok : bool) (data : json) (w : World) : World :=
  mkWorld (instances w) (if ok then Some data else disk w)
          (effects w ++ [InvokeSave data]).

(** [{ ...i, lastPlayed: now }] *)
Definition with_lastPlayed (now : Z) (i : GameInstance) : GameInstance :=
  mkGameInstance (id i) (name i) (info i) (bottleName i) (executablePath i)
                 (backgroundImage i) (Some now) (totalPlayTime i) (playHistory i).

(** The body of the [map] callback of the game-finished listener. *)
Definition applySession (todayKey instance_id : string) (duration_sec : Z)
    (inst : GameInstance) : GameInstance :=
  if String.eqb (id inst) instance_id then
    let currentHistory := default ∅ (playHistory inst) in
    let todayTime := or_zero (currentHistory !! todayKey) + duration_sec in
    mkGameInstance (id inst) (name inst) (info inst) (bottleName inst)
                   (executablePath inst) (backgroundImage inst) (lastPlayed inst)
                   (Some (or_zero (totalPlayTime inst) + duration_sec))
                   (Some (<[todayKey := todayTime]> currentHistory))
  else inst.

(** The listener of "game-finished": a functional update of the state,
    then a save that is not awaited. [todayKey] is
    [new Date().toLocaleDateString("en-CA")]. *)
Definition gameFinished (todayKey instance_id : string) (duration_sec : Z)
    (saveOk : bool) (w : World) : World :=
  let newInstances := applySession todayKey instance_id duration_sec <$> instances w in
  save_instances saveOk (stringify newInstances) (setInstances newInstances w).

(** The comparator of the in-place sort of [handleLaunch]. *)
Definition compareLastPlayed (a b : GameInstance) : Z :=
  or_zero (lastPlayed b) - or_zero (lastPlayed a).

Section WithCollation.
(** [String.prototype.localeCompare], the collation of the host. *)
Variable localeCompare : string -> string -> Z.

(** The comparator of [sortInstances]. *)
Definition compareInstances (a b : GameInstance) : Z :=
  let timeA := or_zero (lastPlayed a) in
  let timeB := or_zero (lastPlayed b) in
  if negb (timeA =? timeB) then timeB - timeA
  else localeCompare (id b) (id a).

Definition sortInstances (l : list GameInstance) : list GameInstance :=
  JS.sort compareInstances l.

(** [loadInstancesData]: [None] only for an array whose entries are
    not instances. *)
Definition loadInstancesData (isManual : bool) (w : World) : option World :=
  let w := log [InvokeLoad] w in
  match disk w with
  | None => Some (log [ConsoleError; Toast error] w)
  | Some loadedData =>
      match loadedData with
      | JArray items =>
          l ← as_instances items;
          Some (log (if isManual then [Toast success] else [])
                    (setInstances (sortInstances l) w))
      | _ => Some (setInstances INITIAL_INSTANCES w)
      end
  end.

Definition handleUpdateInstances (saveOk : bool)
    (newInstances : list GameInstance) (w : World) : World :=
  let sorted := sortInstances newInstances in
  let w := save_instances saveOk (stringify sorted) (setInstances sorted w) in
  if saveOk then w else log [ConsoleError] w.

(** [handleLaunch]: [seen] is the [instances] of the render whose
    closure runs, [response] the outcome of [invoke("launch_game")],
    [now] the value of [Date.now()]. *)
Definition handleLaunch (config : Config) (seen : list GameInstance)
    (instance : GameInstance) (response : option Z) (now : Z) (saveOk : bool)
    (w : World) : World :=
  let w := log [InvokeLaunch (id instance)
                  (bottlesPath config +:+ "/" +:+ bottleName instance)
                  (executablePath instance) (crossoverPath config)] w in
  match response with
  | Some pid =>
      let w := log [Toast success] w in
      let newInstances :=
        (fun i => if String.eqb (id i) (id instance) then with_lastPlayed now i else i)
          <$> seen in
      let sorted := JS.sort compareLastPlayed newInstances in
      handleUpdateInstances saveOk sorted w
  | None => log [ConsoleError; Toast error] w
  end.
End WithCollation.
End App.

(** ** Instance editor (components/InstancesPage.tsx, the form page) *)

Module InstancesPageV1.
Import JS App.

Record PageState : Type := mkPage {
  selectedId : option string;
  isCreating : bool;
  formData : PartialGameInstance
}.

(** What a handler of the page did: the new page state, the lists it
    passed to the [setInstances] prop, the toasts it showed. *)
Record Outcome : Type := mkOutcome {
  page : PageState;
  calls : list (list GameInstance);
  toasts : list ToastType
}.

Definition handleStartCreate (st : PageState) : PageState :=
  mkPage (Some "NEW") true
         (mkPartial None (Some "") (Some "") (Some "") (Some "") None None None None).

Definition handleStartEdit (instance : GameInstance) (st : PageState) : PageState :=
  mkPage (Some (id instance)) false (spread instance).

(** The inputs of the form, [setFormData({ ...formData, key: v })]. *)
Inductive FormKey : Type :=
  K_name | K_info | K_bottleName | K_executablePath | K_backgroundImage.

Definition setFormField (k : FormKey) (v : string) (fd : PartialGameInstance)
  : PartialGameInstance :=
  match k with
  | K_name =>
      mkPartial (p_id fd) (Some v) (p_info fd) (p_bottleName fd) (p_executablePath fd)
                (p_backgroundImage fd) (p_lastPlayed fd) (p_totalPlayTime fd) (p_playHistory fd)
  | K_info =>
      mkPartial (p_id fd) (p_name fd) (Some v) (p_bottleName fd) (p_executablePath fd)
                (p_backgroundImage fd) (p_lastPlayed fd) (p_totalPlayTime fd) (p_playHistory fd)
  | K_bottleName =>
      mkPartial (p_id fd) (p_name fd) (p_info fd) (Some v) (p_executablePath fd)
                (p_backgroundImage fd) (p_lastPlayed fd) (p_totalPlayTime fd) (p_playHistory fd)
  | K_executablePath =>
      mkPartial (p_id fd) (p_name fd) (p_info fd) (p_bottleName fd) (Some v)
                (p_backgroundImage fd) (p_lastPlayed fd) (p_totalPlayTime fd) (p_playHistory fd)
  | K_backgroundImage =>
      mkPartial (p_id fd) (p_name fd) (p_info fd) (p_bottleName fd) (p_executablePath fd)
                (Some v) (p_lastPlayed fd) (p_totalPlayTime fd) (p_playHistory fd)
  end.

Definition editField (k : FormKey) (v : string) (st : PageState) : PageState :=
  mkPage (selectedId st) (isCreating st) (setFormField k v (formData st)).

(** [handleSave]; [instances] is the prop of the current render, [now]
    the value of [Date.now()]. *)
Definition handleSave (instances : list GameInstance) (now : Z) (st : PageState)
  : Outcome :=
  let fd := formData st in
  if negb (truthy (p_name fd)) || negb (truthy (p_executablePath fd)) then
    mkOutcome st [] [error]
  else if isCreating st then
    let newInstance :=
      mkGameInstance (pretty now) (default "" (p_name fd))
                     (or_string (p_info fd) "自定义实例")
                     (or_string (p_bottleName fd) "Default")
                     (default "" (p_executablePath fd))
                     None (Some 0) (Some 0) (Some ∅) in
    mkOutcome (mkPage (Some (id newInstance)) false fd)
              [instances ++ [newInstance]] [success]
  else if truthy (selectedId st) then
    let sel := default "" (selectedId st) in
    mkOutcome st
              [(fun i => if String.eqb (id i) sel then overlay i fd else i) <$> instances]
              [success]
  else mkOutcome st [instances] [success].

(** [confirmDelete] for the instance held by the delete dialog. *)
Definition confirmDelete (instances : list GameInstance) (target : GameInstance)
    (st : PageState) : Outcome :=
  mkOutcome (mkPage None (isCreating st) (formData st))
            [filter (fun i => id i ≠ id target) instances] [success].
End InstancesPageV1.

(** ** Batch import and metadata search (components/InstancesPage.tsx,
    the import page) *)

Module SearchResult.
Record t : Type := mk {
  id : string;
  title : string;
  cover : string;
  source : string;
  url : string
}.
End SearchResult.

Module BatchItem.
Inductive Status : Type := pending | matching | matched | unmatched.

Record t : Type := mk {
  id : string;
  selected : bool;
  dirName : string;
  executables : list string;
  selectedExec : string;
  bottleName : string;
  status : Status;
  matchedResult : option SearchResult.t;
  searchResults : list SearchResult.t;
  manualInfo : PartialGameInstance
}.

(** [Partial<BatchItem>], with the keys the page updates. *)
Record updates : Type := mkUpdates {
  u_selected : option bool;
  u_selectedExec : option string;
  u_bottleName : option string;
  u_status : option Status;
  u_matchedResult : option SearchResult.t;
  u_searchResults : option (list SearchResult.t);
  u_manualInfo : option PartialGameInstance
}.

(** [{ ...item, ...updates }] *)
Definition merge (item : t) (u : updates) : t :=
  mk (id item)
     (default (selected item) (u_selected u))
     (dirName item)
     (executables item)
     (default (selectedExec item) (u_selectedExec u))
     (default (bottleName item) (u_bottleName u))
     (default (status item) (u_status u))
     (from_option Some (matchedResult item) (u_matchedResult u))
     (default (searchResults item) (u_searchResults u))
     (default (manualInfo item) (u_manualInfo u)).

(** [{ ...item, status: 'matching' }] *)
Definition with_matching (item : t) : t :=
  mk (id item) (selected item) (dirName item) (executables item) (selectedExec item)
     (bottleName item) matching (matchedResult item) (searchResults item)
     (manualInfo item).

(** [{ status: 'unmatched', searchResults: [] }] *)
Definition to_unmatched : updates :=
  mkUpdates None None None (Some unmatched) None (Some []) None.

(** [{ status: 'matched', matchedResult: first, searchResults: results }] *)
Definition to_matched (first : SearchResult.t) (results : list SearchResult.t)
  : updates :=
  mkUpdates None None None (Some matched) (Some first) (Some results) None.

Definition is_pending_or_unmatched (s : Status) : bool :=
  match s with
  | pending | unmatched => true
  | _ => false
  end.
End BatchItem.

Module InstancesPage.
Import JS App.

(** A functional update of the [batchItems] state. *)
Definition updater : Type := list BatchItem.t -> list BatchItem.t.

(** The state after the updaters ran in order with nothing in between. *)
Definition run (us : list updater) (items : list BatchItem.t) : list BatchItem.t :=
  foldl (fun s u => u s) items us.

Definition updateBatchItem (id : string) (u : BatchItem.updates) : updater :=
  fun prev =>
    (fun item => if String.eqb (BatchItem.id item) id then BatchItem.merge item u else item)
      <$> prev.

(** The key of the deduplication map, [item.title + item.source]. *)
Definition dedupKey (item : SearchResult.t) : string :=
  SearchResult.title item +:+ SearchResult.source item.

(** The map [uniqueMap] filled from [allResults], for a key of any
    type. *)
Definition collect {K : Type} `{EqDecision K} (key : SearchResult.t -> K)
    (allResults : list SearchResult.t) : list (K * SearchResult.t) :=
  foldl (fun m item => map_set (key item) item m) [] allResults.

Section WithBackend.
(** [invoke('get_directory_keywords', { path })]; [None] is a
    rejected promise. *)
Variable get_directory_keywords : string -> option (list string).
(** [invoke('search_game', { keyword, source })]; [None] is a rejected
    promise. *)
Variable search_game : string -> string -> option (list SearchResult.t).

(** The arrays [Promise.all] returns: per keyword the answer of
    touchgal then of kungal, a failed request caught as []. *)
Definition resultsArrays (keywords : list string) : list (list SearchResult.t) :=
  keywords ≫= (fun kw => [default [] (search_game kw "touchgal");
                            default [] (search_game kw "kungal")]).

Definition fetchGameResults (keywords : list string) : list SearchResult.t :=
  let allResults := concat (resultsArrays keywords) in
  let uniqueMap := collect dedupKey allResults in
  map_values uniqueMap.

(** One turn of the loop of [handleStartBatchMatching]. *)
Definition matchItem (item : BatchItem.t) : updater :=
  match get_directory_keywords (BatchItem.selectedExec item) with
  | None => updateBatchItem (BatchItem.id item) BatchItem.to_unmatched
  | Some keywords =>
      if (length keywords =? 0)%nat then
        updateBatchItem (BatchItem.id item) BatchItem.to_unmatched
      else
        match fetchGameResults keywords with
        | first :: rest =>
            updateBatchItem (BatchItem.id item)
                            (BatchItem.to_matched first (first :: rest))
        | [] => updateBatchItem (BatchItem.id item) BatchItem.to_unmatched
        end
  end.

(** [i.selected && (i.status === 'pending' || i.status === 'unmatched')] *)
Definition eligible (i : BatchItem.t) : bool :=
  BatchItem.selected i && BatchItem.is_pending_or_unmatched (BatchItem.status i).

Definition itemsToMatch (batchItems : list BatchItem.t) : list BatchItem.t :=
  filter (fun i => eligible i = true) batchItems.

(** The first [setBatchItems] of [handleStartBatchMatching]. *)
Definition markMatching (toMatch : list BatchItem.t) : updater :=
  fun prev =>
    (fun item =>
       if existsb (fun i => String.eqb (BatchItem.id i) (BatchItem.id item)) toMatch
       then BatchItem.with_matching item else item) <$> prev.

(** [handleStartBatchMatching]: the updates it makes to [batchItems],
    in order; [batchItems] is the value of the render whose closure
    runs. *)
Definition handleStartBatchMatching (batchItems : list BatchItem.t)
  : list updater :=
  let toMatch := itemsToMatch batchItems in
  markMatching toMatch :: (matchItem <$> toMatch).

(** The candidates found for an item: none when the keywords cannot
    be extracted. *)
Definition candidates (item : BatchItem.t) : list SearchResult.t :=
  match get_directory_keywords (BatchItem.selectedExec item) with
  | Some keywords => fetchGameResults keywords
  | None => []
  end.

(** The update one turn of the loop makes to its item. *)
Definition verdict (item : BatchItem.t) : BatchItem.updates :=
  match candidates item with
  | first :: rest => BatchItem.to_matched first (first :: rest)
  | [] => BatchItem.to_unmatched
  end.

(** The turns of the loop for the items [xs], seen from one item. *)
Definition turns (xs : list BatchItem.t) (item : BatchItem.t) : BatchItem.t :=
  foldl (fun it x =>
           if String.eqb (BatchItem.id it) (BatchItem.id x)
           then BatchItem.merge it (verdict x) else it) item xs.
End WithBackend.

Record BatchState : Type := mkBatch {
  batchItems : list BatchItem.t;
  isBatchModalOpen : bool
}.

Record Outcome : Type := mkOutcome {
  batch : BatchState;
  calls : list (list GameInstance);
  toasts : list ToastType
}.

(** The instance built for one item; [uuid] is [crypto.randomUUID()]. *)
Definition importItem (uuid : string) (item : BatchItem.t) : GameInstance :=
  let manual := BatchItem.manualInfo item in
  let finalName :=
    or_string (or_else (p_name manual)
                       (SearchResult.title <$> BatchItem.matchedResult item))
              (BatchItem.dirName item) in
  let finalCover :=
    or_else (p_backgroundImage manual)
            (SearchResult.cover <$> BatchItem.matchedResult item) in
  mkGameInstance uuid finalName (or_string (p_info manual) "")
                 (BatchItem.bottleName item) (BatchItem.selectedExec item)
                 finalCover None None None.

(** [handleConfirmBatchImport]; [randomUUID k] is the k-th identifier
    drawn, [instances] the prop of the current render. *)
Definition handleConfirmBatchImport (randomUUID : nat -> string)
    (instances : list GameInstance) (st : BatchState) : Outcome :=
  let toImport := filter (fun i => BatchItem.selected i = true) (batchItems st) in
  if (length toImport =? 0)%nat then mkOutcome st [] [error]
  else
    let newInstances := imap (fun k item => importItem (randomUUID k) item) toImport in
    mkOutcome (mkBatch [] false) [instances ++ newInstances] [success].
End InstancesPage.

(** ** The pieces together: the shell, the editor and the import page on
    one event loop *)

Module System.
Import App.

(** [launches] holds the closures of the [handleLaunch] calls that
    await the back end: the [instances] each one saw and its argument. *)
Record State : Type := mkState {
  world : World;
  page : InstancesPageV1.PageState;
  launches : list (list GameInstance * GameInstance)
}.

(** The edit form opened on [A] with the name changed to [n]. *)
Definition renaming (A : GameInstance) (n : string) (s : State) : State :=
  mkState (world s)
    (InstancesPageV1.editField InstancesPageV1.K_name n
       (InstancesPageV1.handleStartEdit A (page s)))
    (launches s).

(** What saving that form makes of an instance [i] with the id of [A]. *)
Definition renamed (A : GameInstance) (n : string) (i : GameInstance) : GameInstance :=
  overlay i (InstancesPageV1.setFormField InstancesPageV1.K_name n (spread A)).

Definition initial (d : option JS.json) : State :=
  mkState (mkWorld [] d [])
          (InstancesPageV1.mkPage None false empty_partial) [].

Section Transitions.
Variable localeCompare : string -> string -> Z.
Variable config : Config.

(** The [setInstances] prop of the pages is [handleUpdateInstances]. *)
Definition replaceAll (saveOk : bool) (calls : list (list GameInstance))
    (w : World) : World :=
  foldl (fun w l => handleUpdateInstances localeCompare saveOk l w) w calls.

Definition save (now : Z) (saveOk : bool) (s : State) : State :=
  let o := InstancesPageV1.handleSave (instances (world s)) now (page s) in
  mkState (log (Toast <$> InstancesPageV1.toasts o)
               (replaceAll saveOk (InstancesPageV1.calls o) (world s)))
          (InstancesPageV1.page o) (launches s).

Definition delete (target : GameInstance) (saveOk : bool) (s : State) : State :=
  let o := InstancesPageV1.confirmDelete (instances (world s)) target (page s) in
  mkState (log (Toast <$> InstancesPageV1.toasts o)
               (replaceAll saveOk (InstancesPageV1.calls o) (world s)))
          (InstancesPageV1.page o) (launches s).

Definition session (todayKey instance_id : string) (duration_sec : Z)
    (saveOk : bool) (s : State) : State :=
  mkState (gameFinished todayKey instance_id duration_sec saveOk (world s))
          (page s) (launches s).

Definition commit (randomUUID : nat -> string) (b : InstancesPage.BatchState)
    (saveOk : bool) (s : State) : State :=
  let o := InstancesPage.handleConfirmBatchImport randomUUID (instances (world s)) b in
  mkState (log (Toast <$> InstancesPage.toasts o)
               (replaceAll saveOk (InstancesPage.calls o) (world s)))
          (page s) (launches s).

(** One turn of the event loop. *)
Inductive step : State -> State -> Prop :=
| step_startCreate s :
    step s (mkState (world s) (InstancesPageV1.handleStartCreate (page s)) (launches s))
| step_startEdit s inst :
    inst ∈ instances (world s) ->
    step s (mkState (world s) (InstancesPageV1.handleStartEdit inst (page s)) (launches s))
| step_editField s k v :
    step s (mkState (world s) (InstancesPageV1.editField k v (page s)) (launches s))
| step_save s now saveOk :
    step s (save now saveOk s)
| step_delete s target saveOk :
    target ∈ instances (world s) ->
    step s (delete target saveOk s)
| step_session s todayKey instance_id duration_sec saveOk :
    step s (session todayKey instance_id duration_sec saveOk s)
| step_launch_begin s inst :
    inst ∈ instances (world s) ->
    step s (mkState (world s) (page s) ((instances (world s), inst) :: launches s))
| step_launch_end s before seen inst after response now saveOk :
    launches s = before ++ (seen, inst) :: after ->
    step s (mkState (handleLaunch localeCompare config seen inst response now saveOk (world s))
                    (page s) (before ++ after))
| step_commit s randomUUID b saveOk :
    step s (commit randomUUID b saveOk s).

Definition reachable (d : option JS.json) : State -> Prop :=
  rtc step (initial d).
End Transitions.
End System.

(** ** Every way the catalogue of the shell changes *)

Module Store.
Import App.

Section Transitions.
Variable localeCompare : string -> string -> Z.
Variable config : Config.

(** The operations of App.tsx on its state; the pages reach it only
    through [handleUpdateInstances] and [handleLaunch].  The last
    constructor is the persistence collaborator changing what it
    holds. *)
Inductive step : World -> World -> Prop :=
| step_load isManual w w' :
    loadInstancesData localeCompare isManual w = Some w' -> step w w'
| step_replace saveOk newInstances w :
    step w (handleUpdateInstances localeCompare saveOk newInstances w)
| step_session todayKey instance_id duration_sec saveOk w :
    step w (gameFinished todayKey instance_id duration_sec saveOk w)
| step_launch seen instance response now saveOk w :
    step w (handleLaunch localeCompare config seen instance response now saveOk w)
| step_disk d w :
    step w (mkWorld (instances w) d (effects w)).

(** The states the program produces from its start, [useState([])]. *)
Definition produced (w : World) : Prop :=
  exists d, rtc step (mkWorld [] d []) w.
End Transitions.
End Store.

(** ** The properties in the words of the specification *)

Module Spec.

(** A number that may be missing, read as seconds. *)
Definition seconds (o : option Z) : Z := default 0 o.

(** The seconds a history records for a day. *)
Definition played_on (h : option (gmap string Z)) (day : string) : Z :=
  seconds (default ∅ h !! day).

(** Once both are present, the total is the sum of the history. *)
Definition playtime_consistent (i : GameInstance) : Prop :=
  forall t h, totalPlayTime i = Some t -> playHistory i = Some h -> t = history_sum h.

(** The timestamp the ordering rule reads: never played counts as 0. *)
Definition played_at (i : GameInstance) : Z := seconds (lastPlayed i).

Section Ordering.
Variable localeCompare : string -> string -> Z.

(** [a] may stand before [b]: later [lastPlayed] first, and for equal
    [lastPlayed] the id that collates later first. *)
Definition precedes (a b : GameInstance) : Prop :=
  played_at b < played_at a \/
  (played_at a = played_at b /\ localeCompare (id b) (id a) <= 0).

(** What the host guarantees of its collation: a consistent
    comparator. *)
Definition consistent_collation : Prop :=
  (forall a b, Z.sgn (localeCompare a b) = - Z.sgn (localeCompare b a)) /\
  (forall a b c, localeCompare a b <= 0 -> localeCompare b c <= 0 ->
                 localeCompare a c <= 0).
End Ordering.

(** [a ?? b]: the first operand unless it is missing. *)
Definition nullish {A} (a b : option A) : option A :=
  match a with
  | Some v => Some v
  | None => b
  end.

(** The name of an imported item as the specification words it,
    [manualInfo.name ?? matchedResult.title ?? dirName]. *)
Definition name_by_nullish (item : BatchItem.t) : string :=
  default (BatchItem.dirName item)
          (nullish (p_name (BatchItem.manualInfo item))
                   (SearchResult.title <$> BatchItem.matchedResult item)).

(** A string that is present and not empty. *)
Definition filled (o : option string) : option string :=
  match o with
  | Some "" => None
  | other => other
  end.

(** Deduplication of search results by a key [key]: one entry per key,
    in the order the keys are first seen, each the last result with
    that key. *)
Section Dedup.
Context {K : Type} `{EqDecision K} (key : SearchResult.t -> K).

Fixpoint first_seen (ks : list K) : list K :=
  match ks with
  | [] => []
  | k :: rest => k :: filter (fun k' => k' ≠ k) (first_seen rest)
  end.

Definition last_with (k : K) (l : list SearchResult.t) : option SearchResult.t :=
  last (filter (fun r => key r = k) l).

End Dedup.

(** The pair the specification names as identity. *)
Definition identity (r : SearchResult.t) : string * string :=
  (SearchResult.title r, SearchResult.source r).
End Spec.

(** ** The invariant behind the agreement of total and history *)

Module Playtime.
(** Total and history are both missing, or both present and in
    agreement. *)
Definition settled (t : option Z) (h : option (gmap string Z)) : Prop :=
  (t = None /\ h = None) \/
  (exists tv hv, t = Some tv /\ h = Some hv /\ tv = history_sum hv).

Definition settled_instance (i : GameInstance) : Prop :=
  settled (totalPlayTime i) (playHistory i).

(** Every instance of the catalogue, the form being edited and every
    list a pending launch holds are settled. *)
Definition invariant (s : System.State) : Prop :=
  Forall settled_instance (App.instances (System.world s)) /\
  settled (p_totalPlayTime (InstancesPageV1.formData (System.page s)))
          (p_playHistory (InstancesPageV1.formData (System.page s))) /\
  Forall (fun c => Forall settled_instance c.1) (System.launches s).
End Playtime.

(** ** A code-unit collation, to instantiate the host's *)

Module CodeUnit.
Definition localeCompare (a b : string) : Z :=
  match String_as_OT.compare a b with
  | Lt => -1
  | Eq => 0
  | Gt => 1
  end.
End CodeUnit.

(** ** Concrete catalogues used to exercise the properties *)

Module Examples.
Import App.

Definition config : Config :=
  mkConfig "/Users/me/Bottles" "/Applications/CrossOver.app".

(** An instance as the creation form builds it. *)
Definition A : GameInstance :=
  mkGameInstance "1700000000000" "Alpha" "v1" "Default" "C:/alpha/start.exe"
                 None (Some 0) (Some 0) (Some ∅).

(** An instance that has been launched and played. *)
Definition B : GameInstance :=
  mkGameInstance "1700000005000" "Beta" "" "Steam" "C:/beta/beta.exe"
                 (Some "https://img.example/beta.png") (Some 1700000100000)
                 (Some 100) (Some {[ "2024-01-01" := 100 ]}).

Definition start : World := mkWorld [] None [].

(** [A] and [B] saved, then a session of 50 seconds of [A]. *)
Definition after_session : World :=
  gameFinished "2024-01-02" "1700000000000" 50 true
               (handleUpdateInstances CodeUnit.localeCompare true [A; B] start).
End Examples.

(** ** Concrete runs of the whole system *)

Module Runs.
Import App System InstancesPageV1.

Definition today : string := "2024-01-02".
Definition created_at : Z := 1700000000000.

Definition with_page (p : PageState) (s : State) : State :=
  mkState (world s) p (launches s).

(** The create form filled in and saved: the catalogue holds one
    instance, with id "1700000000000". *)
Definition s1 : State :=
  with_page (handleStartCreate (System.page (initial None))) (initial None).
Definition s2 : State := with_page (editField K_name "Alpha" (System.page s1)) s1.
Definition s3 : State :=
  with_page (editField K_executablePath "C:/alpha/start.exe" (System.page s2)) s2.
Definition created : State := save CodeUnit.localeCompare created_at true s3.

(** The instance the create form made. *)
Definition alpha : GameInstance :=
  mkGameInstance "1700000000000" "Alpha" "自定义实例" "Default"
                 "C:/alpha/start.exe" None (Some 0) (Some 0) (Some ∅).

(** The edit form opened on it and the name changed, not yet saved. *)
Definition editing : State :=
  with_page (editField K_name "Alpha Renamed"
               (handleStartEdit alpha (System.page created))) created.

(** Save, then a session of 50 seconds. *)
Definition save_then_session : State :=
  session today "1700000000000" 50 true
          (save CodeUnit.localeCompare created_at true editing).

(** A session of 50 seconds, then save. *)
Definition session_then_save : State :=
  save CodeUnit.localeCompare created_at true
       (session today "1700000000000" 50 true editing).

(** The instance after the rename was saved and the session counted. *)
Definition alpha_played : GameInstance :=
  mkGameInstance "1700000000000" "Alpha Renamed" "自定义实例" "Default"
                 "C:/alpha/start.exe" None (Some 0) (Some 50)
                 (Some {[ today := 50 ]}).

Definition summary (s : State) : list (string * option Z * option (gmap string Z)) :=
  (fun i => (name i, totalPlayTime i, playHistory i)) <$> instances (world s).
End Runs.

(** ** Concrete batches and search answers *)

Module Batches.
Definition found : SearchResult.t :=
  SearchResult.mk "tg-42" "Found Title" "https://img.example/42.png" "touchgal"
                  "https://touchgal.example/42".

Definition item (id : string) (selected : bool) (dir : string)
    (st : BatchItem.Status) (m : option SearchResult.t)
    (manual : PartialGameInstance) : BatchItem.t :=
  BatchItem.mk id selected dir [dir +:+ "/game.exe"] (dir +:+ "/game.exe")
               "Default" st m (from_option (fun r => [r]) [] m) manual.

(** The name field of the manual form typed in and cleared again. *)
Definition cleared_name : PartialGameInstance :=
  mkPartial None (Some "") None None None None None None None.

Definition item_cleared : BatchItem.t :=
  item "b-1" true "GameDir" BatchItem.matched (Some found) cleared_name.

Definition three : list BatchItem.t :=
  [item "b-1" true "One" BatchItem.pending None empty_partial;
   item "b-2" false "Two" BatchItem.pending None empty_partial;
   item "b-3" true "Three" BatchItem.matched (Some found) empty_partial].

Definition randomUUID (k : nat) : string := "uuid-" +:+ pretty k.
End Batches.

(** ** Concrete search answers *)

Module Searches.


(** Both providers know the same title; kungal fails for "beta". *)
Definition t1 : SearchResult.t :=
  SearchResult.mk "tg-1" "Alpha" "https://img.example/a1.png" "touchgal"
                  "https://touchgal.example/1".
Definition t1' : SearchResult.t :=
  SearchResult.mk "tg-9" "Alpha" "https://img.example/a9.png" "touchgal"
                  "https://touchgal.example/9".
Definition k1 : SearchResult.t :=
  SearchResult.mk "kg-1" "Alpha" "https://img.example/k1.png" "kungal"
                  "https://kungal.example/1".

Definition search_game (keyword source : string) : option (list SearchResult.t) :=
  if String.eqb source "touchgal" then
    if String.eqb keyword "alpha" then Some [t1] else Some [t1']
  else
    if String.eqb keyword "alpha" then Some [k1] else None.

Definition get_directory_keywords (path : string) : option (list string) :=
  if String.eqb path "One/game.exe" then Some ["alpha"; "beta"]
  else if String.eqb path "Three/game.exe" then None
  else Some [].
End Searches.

(** ** What the shell hands to the layout (App.tsx) *)

Module AppView.
(** [instances.length > 0 ? instances[0] : undefined] *)
Definition currentDisplayInstance (w : App.World) : option GameInstance :=
  head (App.instances w).
End AppView.

(** ** A form being typed into *)

Module Forms.
Import InstancesPageV1.

(** The inputs of the form changed one after the other. *)
Definition typing (edits : list (FormKey * string)) (st : PageState) : PageState :=
  foldl (fun st e => editField e.1 e.2 st) st edits.
End Forms.

(** ** The launch panel (components/LaunchControl.tsx) *)

Module LaunchControl.
Import JS.

(** [useState(instances[0]?.id)], with the [instances] of the mount. *)
Definition initialSelectedId (instances : list GameInstance) : option string :=
  id <$> head instances.

(** [i.id === selectedId], [selectedId] possibly [undefined]. *)
Definition is_selected (selectedId : option string) (i : GameInstance) : bool :=
  match selectedId with
  | Some s => String.eqb (id i) s
  | None => false
  end.

(** [instances.find((i) => i.id === selectedId) || instances[0]] *)
Definition currentInstance (instances : list GameInstance)
    (selectedId : option string) : option GameInstance :=
  match List.find (is_selected selectedId) instances with
  | Some i => Some i
  | None => head instances
  end.

(** [formatTime]; [seconds % 3600] keeps the sign of [seconds],
    [Math.floor] rounds down. *)
Definition formatTime (seconds : Z) : string :=
  if seconds =? 0 then "0分钟"
  else
    let h := seconds / 3600 in
    let m := Z.rem seconds 3600 / 60 in
    if 0 <? h then pretty h +:+ "小时" +:+ pretty m +:+ "分"
    else pretty m +:+ "分钟".

(** [getDailyTime]; [todayKey] is
    [new Date().toLocaleDateString("en-CA")]. *)
Definition getDailyTime (todayKey : string) (inst : option GameInstance) : Z :=
  match inst with
  | None => 0
  | Some i =>
      match playHistory i with
      | None => 0
      | Some h => or_zero (h !! todayKey)
      end
  end.

End LaunchControl.

(** ** Notifications (components/ToastProvider.tsx) *)

Module ToastProvider.
Import App.

Record Toast : Type := mkToast {
  id : string;
  message : string;
  type : ToastType
}.

(** [toasts] is the React state; [timers] holds the callbacks handed
    to [setTimeout] that have not run yet, each with the time it is
    due and the id its closure captured. *)
Record State : Type := mkState {
  toasts : list Toast;
  timers : list (Z * string)
}.

Definition initial : State := mkState [] [].

(** [prev.filter((t) => t.id !== id)] *)
Definition without (i : string) (l : list Toast) : list Toast :=
  filter (fun t => id t ≠ i) l.

(** [showToast(message, type = "info")]; [now] is [Date.now()]. *)
Definition showToast (now : Z) (message : string) (type : option ToastType)
    (st : State) : State :=
  let i := pretty now in
  mkState (toasts st ++ [mkToast i message (default info_toast type)])
          (timers st ++ [(now + 3000, i)]).

Definition removeToast (i : string) (st : State) : State :=
  mkState (without i (toasts st)) (timers st).

(** The [k]-th pending timer runs. *)
Definition fire (k : nat) (st : State) : State :=
  match timers st !! k with
  | Some (_, i) => mkState (without i (toasts st)) (delete k (timers st))
  | None => st
  end.

Inductive Event : Type :=
| Display (now : Z) (message : string) (type : option ToastType)
| Close (i : string)
| Fire (k : nat).

Definition handle (st : State) (e : Event) : State :=
  match e with
  | Display now message type => showToast now message type st
  | Close i => removeToast i st
  | Fire k => fire k st
  end.

Definition run (events : list Event) (st : State) : State :=
  foldl handle st events.

(** How many toasts on screen, and how many pending timers, carry the
    id [i]. *)
Definition shown (i : string) (st : State) : nat :=
  length (filter (fun t => id t = i) (toasts st)).

Definition pending (i : string) (st : State) : nat :=
  length (filter (fun t => t.2 = i) (timers st)).
End ToastProvider.

(** ** The news feed (components/DiscoveryPage.tsx) *)

Module DiscoveryPage.

Record Topic : Type := mkTopic {
  topicId : string;
  author : Z;
  mainImg : string;
  title : string;
  introduction : string;
  views : Z;
  replyNum : Z;
  likesNum : Z;
  favoritesNum : Z;
  publishTime : string;
  createAt : string;
  topicCategory : string;
  publishTimeText : string
}.

(** [data] may be missing in an answer: the page tests it. *)
Record YmgalResponse : Type := mkResponse {
  success : bool;
  code : Z;
  data : option (list Topic)
}.

(** How [invoke('fetch_ymgal_news')] settles. *)
Inductive Answer : Type :=
| Rejected (err : string)
| Resolved (r : YmgalResponse).

(** The state and the refs of the page.  [inflight] holds the page
    numbers of the calls of [fetchArticles] that await the back end;
    [observerHasMore] is the [hasMore] the subscribed observer
    captured. *)
Record State : Type := mkState {
  articles : list Topic;
  hasMore : bool;
  error : option string;
  pageRef : Z;
  loadingRef : bool;
  loadingState : bool;
  inflight : list Z;
  observerHasMore : bool
}.

Definition initial : State := mkState [] true None 1 false false [] true.

(** The updater handed to [setArticles]. *)
Definition mergeArticles (pageNum : Z) (page : list Topic) (prev : list Topic)
  : list Topic :=
  if pageNum =? 1 then page
  else
    let existingIds := topicId <$> prev in
    let newArticles := filter (fun a => topicId a ∉ existingIds) page in
    prev ++ newArticles.

(** [fetchArticles] up to its [await]. *)
Definition fetchArticles (pageNum : Z) (st : State) : State :=
  if loadingRef st then st
  else mkState (articles st) (hasMore st) None (pageRef st) true true
               (inflight st ++ [pageNum]) (observerHasMore st).

(** [fetchArticles] from its [await] on. *)
Definition settle (pageNum : Z) (answer : Answer) (st : State) : State :=
  match answer with
  | Resolved r =>
      match data r with
      | Some page =>
          if success r && (0 <? length page)%nat then
            mkState (mergeArticles pageNum page (articles st))
                    (if (length page <? 10)%nat then false else hasMore st)
                    (error st) pageNum false false (inflight st) (observerHasMore st)
          else
            mkState (articles st) false (error st) (pageRef st) false false
                    (inflight st) (observerHasMore st)
      | None =>
          mkState (articles st) false (error st) (pageRef st) false false
                  (inflight st) (observerHasMore st)
      end
  | Rejected err =>
      mkState (articles st) (hasMore st) (Some err) (pageRef st) false false
              (inflight st) (observerHasMore st)
  end.

(** What happens to the page: the mount effect, the observer firing,
    the effect that subscribes the observer running again, a click on
    the retry button of the error banner, the back end settling the
    oldest call. *)
Inductive Event : Type :=
| Mount
| Intersect (isIntersecting : bool)
| Resubscribe
| Retry
| Settle (answer : Answer).

Definition handle (st : State) (e : Event) : State :=
  match e with
  | Mount =>
      if (pageRef st =? 1) && (length (articles st) =? 0)%nat
      then fetchArticles 1 st else st
  | Intersect isIntersecting =>
      if isIntersecting && observerHasMore st && negb (loadingRef st)
      then fetchArticles (pageRef st + 1) st else st
  | Resubscribe =>
      mkState (articles st) (hasMore st) (error st) (pageRef st) (loadingRef st)
              (loadingState st) (inflight st) (hasMore st)
  | Retry =>
      match error st with
      | Some _ => fetchArticles (pageRef st) st
      | None => st
      end
  | Settle answer =>
      match inflight st with
      | pageNum :: rest =>
          settle pageNum answer
                 (mkState (articles st) (hasMore st) (error st) (pageRef st)
                          (loadingRef st) (loadingState st) rest (observerHasMore st))
      | [] => st
      end
  end.

Definition run (events : list Event) (st : State) : State :=
  foldl handle st events.

(** At most one call is awaited, for the page shown or the one after
    it, the refs agree with it, and no error is shown meanwhile. *)
Definition single_flight (st : State) : Prop :=
  loadingState st = loadingRef st /\
  (loadingRef st = true ->
     exists p, inflight st = [p] /\ 1 <= p <= pageRef st + 1 /\ error st = None) /\
  (loadingRef st = false -> inflight st = []) /\
  1 <= pageRef st.

(** The page an answer carries. *)
Definition page_of (e : Event) : list Topic :=
  match e with
  | Settle (Resolved r) => default [] (data r)
  | _ => []
  end.
End DiscoveryPage.

(** ** Single import, edit and scan of the import page
    (components/InstancesPage.tsx) *)

Module ImportPage.
Import JS App.

Inductive ImportState : Type :=
  none | choice | search_params | search_results | manual_form.

Record DeleteModal : Type := mkDeleteModal {
  isOpen : bool;
  instance : option GameInstance
}.

Record State : Type := mkState {
  selectedId : option string;
  importState : ImportState;
  formData : PartialGameInstance;
  searchExecPath : string;
  searchBottleName : string;
  isSearching : bool;
  searchResults : list SearchResult.t;
  deleteModal : DeleteModal
}.

Record Outcome : Type := mkOutcome {
  state : State;
  calls : list (list GameInstance);
  toasts : list ToastType
}.



(** The settings button of a card:
    [setFormData(inst); setSelectedId(inst.id)]. *)
Definition openEdit (inst : GameInstance) (st : State) : State :=
  mkState (Some (id inst)) (importState st) (spread inst)
          (searchExecPath st) (searchBottleName st) (isSearching st)
          (searchResults st) (deleteModal st).

(** An input of the form, [setFormData({ ...formData, key: v })]. *)
Definition editField (k : InstancesPageV1.FormKey) (v : string) (st : State) : State :=
  mkState (selectedId st) (importState st)
          (InstancesPageV1.setFormField k v (formData st))
          (searchExecPath st) (searchBottleName st) (isSearching st)
          (searchResults st) (deleteModal st).

Definition typing (edits : list (InstancesPageV1.FormKey * string)) (st : State)
  : State :=
  foldl (fun st e => editField e.1 e.2 st) st edits.

(** [formData as GameInstance]: the cast checks nothing; a form that
    lacks a required key gives a value outside [GameInstance], [None]
    here. *)
Definition as_GameInstance (fd : PartialGameInstance) : option GameInstance :=
  i ← p_id fd;
  n ← p_name fd;
  inf ← p_info fd;
  b ← p_bottleName fd;
  e ← p_executablePath fd;
  Some (mkGameInstance i n inf b e (p_backgroundImage fd) (p_lastPlayed fd)
                       (p_totalPlayTime fd) (p_playHistory fd)).

(** [handleSave]; [instances] is the prop of the current render. *)
Definition handleSave (instances : list GameInstance) (st : State) : option Outcome :=
  let fd := formData st in
  if negb (truthy (p_name fd)) || negb (truthy (p_executablePath fd)) then
    Some (mkOutcome st [] [error])
  else
    newInstance ← as_GameInstance fd;
    let newInstances :=
      match List.find (fun i => String.eqb (id i) (id newInstance)) instances with
      | Some _ =>
          (fun i => if String.eqb (id i) (id newInstance) then newInstance else i)
            <$> instances
      | None => instances ++ [newInstance]
      end in
    Some (mkOutcome
            (mkState None none fd (searchExecPath st) (searchBottleName st)
                     (isSearching st) (searchResults st) (deleteModal st))
            [newInstances] [success]).

(** The delete button of the form, rendered when [selectedId] is
    truthy: [setDeleteModal({ isOpen: true,
    instance: instances.find(i => i.id === selectedId)! })]. *)
Definition askDelete (instances : list GameInstance) (st : State) : State :=
  if truthy (selectedId st) then
    mkState (selectedId st) (importState st) (formData st) (searchExecPath st)
            (searchBottleName st) (isSearching st) (searchResults st)
            (mkDeleteModal true
               (List.find (fun i => String.eqb (id i) (default "" (selectedId st)))
                          instances))
  else st.

(** [handleDelete] *)
Definition handleDelete (instances : list GameInstance) (st : State) : Outcome :=
  match instance (deleteModal st) with
  | None => mkOutcome st [] []
  | Some target =>
      mkOutcome
        (mkState None none (formData st) (searchExecPath st) (searchBottleName st)
                 (isSearching st) (searchResults st) (mkDeleteModal false None))
        [filter (fun i => id i ≠ id target) instances] [success]
  end.

Section WithBackend.
Variable get_directory_keywords : string -> option (list string).
Variable search_game : string -> string -> option (list SearchResult.t).

End WithBackend.

(** One entry of the answer of [invoke('scan_game_directories')]. *)
Record ScannedDir : Type := mkScannedDir {
  dir_name : string;
  dir_executables : list string
}.

(** The batch item built for a scanned directory; [uuid] is
    [crypto.randomUUID()], [defaultBottle] is [config.defaultBottle].
    An entry without executables gives an item whose [selectedExec] is
    [undefined], a value outside [BatchItem], [None] here. *)
Definition scanItem (uuid : string) (defaultBottle : option string)
    (bottles : list string) (d : ScannedDir) : option BatchItem.t :=
  exec ← head (dir_executables d);
  Some (BatchItem.mk uuid true (dir_name d) (dir_executables d) exec
                     (or_string (or_else defaultBottle (head bottles)) "Default")
                     BatchItem.pending None [] empty_partial).

(** [handleBatchImportClick]; [selected] is what the directory dialog
    returned, [scan] the answer of the back end for it, [randomUUID k]
    the k-th identifier drawn. *)
Definition handleBatchImportClick (randomUUID : nat -> string)
    (defaultBottle : option string) (bottles : list string)
    (selected : option string) (scan : string -> option (list ScannedDir))
    (st : InstancesPage.BatchState) : option InstancesPage.Outcome :=
  if truthy selected then
    match scan (default "" selected) with
    | Some dirs =>
        if (length dirs =? 0)%nat then Some (InstancesPage.mkOutcome st [] [error])
        else
          items ← mapM (fun kd => scanItem (randomUUID kd.1) defaultBottle bottles kd.2)
                       (imap pair dirs);
          Some (InstancesPage.mkOutcome (InstancesPage.mkBatch items true) [] [])
    | None => Some (InstancesPage.mkOutcome st [] [error])
    end
  else Some (InstancesPage.mkOutcome st [] []).

(** [batchItems.length > 0 && batchItems.every(i => i.selected)] *)
Definition isAllSelected (batchItems : list BatchItem.t) : bool :=
  (0 <? length batchItems)%nat && forallb BatchItem.selected batchItems.

(** [{ ...item, selected: checked }] *)
Definition with_selected (checked : bool) (item : BatchItem.t) : BatchItem.t :=
  BatchItem.mk (BatchItem.id item) checked (BatchItem.dirName item)
               (BatchItem.executables item) (BatchItem.selectedExec item)
               (BatchItem.bottleName item) (BatchItem.status item)
               (BatchItem.matchedResult item) (BatchItem.searchResults item)
               (BatchItem.manualInfo item).

Definition toggleSelectAll (checked : bool) : InstancesPage.updater :=
  fun prev => with_selected checked <$> prev.
End ImportPage.

(** ** Concrete feeds and scans *)

Module Feeds.
Import DiscoveryPage.

Definition topic (i : string) (t : string) : Topic :=
  mkTopic i 7 "https://img.example/t.png" t "" 10 0 0 0
          "2024-01-02 10:00:00" "2024-01-02 10:00:00" "NEWS" "today".

Definition first_page : YmgalResponse :=
  mkResponse true 0 (Some [topic "a1" "One"; topic "a2" "Two"]).

Definition second_page : YmgalResponse :=
  mkResponse true 0 (Some [topic "a2" "Two"; topic "a3" "Three"]).

(** The page mounts, the first page arrives, the observer fires, the
    second page arrives and repeats a topic of the first. *)
Definition events : list Event :=
  [Mount; Settle (Resolved first_page); Intersect true; Settle (Resolved second_page)].

(** A feed whose end has been reached. *)
Definition ended : State := mkState [topic "a1" "One"] false None 1 false false [] false.
End Feeds.

Module Scans.
Import ImportPage.

Definition dirs : list ScannedDir :=
  [mkScannedDir "Alpha" ["Alpha/start.exe"; "Alpha/config.exe"];
   mkScannedDir "Beta" ["Beta/beta.exe"]].

Definition scan (path : string) : option (list ScannedDir) :=
  if String.eqb path "/games" then Some dirs else None.

Definition closed : InstancesPage.BatchState := InstancesPage.mkBatch [] false.

(** The state of the import page with a path chosen for the search. *)
Definition searching : State :=
  mkState None search_params empty_partial "One/game.exe" "Steam" false
          [] (mkDeleteModal false None).
End Scans.

(** * Properties *)

(** ** Facts about the JavaScript primitives *)

Lemma or_zero_seconds (o : option Z) : JS.or_zero o = Spec.seconds o.
Proof.
  destruct o as [v|]; simpl; [|reflexivity].
  destruct (Z.eqb_spec v 0); congruence.
Qed.

Section SortFacts.
Context {A : Type} (comparator : A -> A -> Z).

Local Abbreviation le := (JS.before comparator).

Lemma insert_perm x l : JS.insert comparator x l ≡ₚ x :: l.
Proof.
  induction l as [|y l IH]; simpl; [reflexivity|].
  destruct (comparator x y <=? 0); [reflexivity|].
  rewrite IH. apply Permutation_swap.
Qed.

Lemma sort_perm l : JS.sort comparator l ≡ₚ l.
Proof.
  induction l as [|x l IH]; simpl; [reflexivity|].
  rewrite insert_perm. by rewrite IH.
Qed.

Lemma elem_of_sort x l : x ∈ JS.sort comparator l <-> x ∈ l.
Proof. by rewrite sort_perm. Qed.

Lemma length_sort l : length (JS.sort comparator l) = length l.
Proof. by rewrite sort_perm. Qed.

Lemma sort_singleton x : JS.sort comparator [x] = [x].
Proof. reflexivity. Qed.

(** Inserting in front of a list whose head is not smaller. *)
Lemma insert_sorted_head x l :
  HdRel le x l -> JS.insert comparator x l = x :: l.
Proof.
  destruct 1 as [|y l Hxy]; simpl; [reflexivity|].
  unfold JS.before in Hxy. by rewrite (proj2 (Z.leb_le _ _) Hxy).
Qed.

(** A sorted array is left as it is: the sort is stable. *)
Lemma sort_sorted_id l : Sorted le l -> JS.sort comparator l = l.
Proof.
  induction 1 as [|x l Hl IH Hx]; simpl; [reflexivity|].
  rewrite IH. by apply insert_sorted_head.
Qed.

Section Total.
Hypothesis total : forall x y, 0 < comparator x y -> comparator y x <= 0.

Lemma insert_Sorted x l : Sorted le l -> Sorted le (JS.insert comparator x l).
Proof.
  induction 1 as [|y l Hl IH Hy]; simpl.
  - repeat constructor.
  - destruct (Z.leb_spec (comparator x y) 0) as [Hxy|Hxy].
    + repeat constructor; assumption.
    + constructor; [exact IH|].
      destruct Hy as [|z l Hyz]; simpl.
      * constructor. by apply total.
      * destruct (comparator x z <=? 0); constructor; [by apply total|exact Hyz].
Qed.

Lemma sort_Sorted l : Sorted le (JS.sort comparator l).
Proof.
  induction l as [|x l IH]; simpl; [constructor|by apply insert_Sorted].
Qed.

End Total.

(** For a consistent comparator the sort is stable: the elements that
    compare equal to [z] come out in the order they went in. *)
Section Stable.
Hypothesis antisym : forall x y, Z.sgn (comparator x y) = - Z.sgn (comparator y x).
Hypothesis trans :
  forall x y z, comparator x y <= 0 -> comparator y z <= 0 -> comparator x z <= 0.

Lemma insert_stable z x l :
  filter (fun y => comparator y z = 0) (JS.insert comparator x l)
  = filter (fun y => comparator y z = 0) (x :: l).
Proof.
  induction l as [|y l IH]; [done|]. simpl.
  destruct (Z.leb_spec (comparator x y) 0) as [Hxy|Hxy]; [done|].
  rewrite filter_cons, IH, !filter_cons.
  destruct (decide (comparator y z = 0)) as [Hy|Hy],
           (decide (comparator x z = 0)) as [Hx|Hx]; try done.
  exfalso.
  assert (Hzy : comparator z y <= 0) by (specialize (antisym y z); lia).
  assert (Hxz : comparator x z <= 0) by lia.
  specialize (trans x z y Hxz Hzy). lia.
Qed.

Lemma sort_stable z l :
  filter (fun y => comparator y z = 0) (JS.sort comparator l)
  = filter (fun y => comparator y z = 0) l.
Proof.
  induction l as [|x l IH]; [done|]. simpl.
  by rewrite insert_stable, !filter_cons, IH.
Qed.
End Stable.
End SortFacts.

(** ** Facts about the ordering rule *)

Section OrderingFacts.
Variable localeCompare : string -> string -> Z.
Hypothesis collation : Spec.consistent_collation localeCompare.

Local Abbreviation cmp := (App.compareInstances localeCompare).

Lemma compareInstances_precedes a b :
  cmp a b <= 0 <-> Spec.precedes localeCompare a b.
Proof.
  unfold cmp, App.compareInstances, Spec.precedes, Spec.played_at.
  rewrite !or_zero_seconds.
  destruct (Z.eqb_spec (Spec.seconds (lastPlayed a)) (Spec.seconds (lastPlayed b)));
    simpl; lia.
Qed.

Lemma compareInstances_total a b : 0 < cmp a b -> cmp b a <= 0.
Proof.
  destruct collation as [anti _].
  unfold cmp, App.compareInstances. rewrite !or_zero_seconds.
  destruct (Z.eqb_spec (Spec.seconds (lastPlayed a)) (Spec.seconds (lastPlayed b))) as [E|E];
    simpl.
  - rewrite E, Z.eqb_refl. simpl. specialize (anti (id b) (id a)). lia.
  - destruct (Z.eqb_spec (Spec.seconds (lastPlayed b)) (Spec.seconds (lastPlayed a)));
      simpl; lia.
Qed.

Lemma precedes_trans : Transitive (Spec.precedes localeCompare).
Proof.
  destruct collation as [_ trans].
  intros a b c [Hab|[Eab Hab]] [Hbc|[Ebc Hbc]]; unfold Spec.precedes;
    try (left; lia).
  right. split; [lia|]. by eapply trans.
Qed.

Lemma sortInstances_Sorted l :
  Sorted (Spec.precedes localeCompare) (App.sortInstances localeCompare l).
Proof.
  eapply Sorted_ind with (P := Sorted (Spec.precedes localeCompare)).
  3: { apply (sort_Sorted cmp), compareInstances_total. }
  - constructor.
  - intros x l' _ IH Hhd. constructor; [exact IH|].
    destruct Hhd; constructor. by apply compareInstances_precedes.
Qed.

Lemma sortInstances_StronglySorted l :
  StronglySorted (Spec.precedes localeCompare) (App.sortInstances localeCompare l).
Proof.
  apply Sorted_StronglySorted; [apply precedes_trans|apply sortInstances_Sorted].
Qed.

End OrderingFacts.

(** The code-unit collation is a consistent comparator. *)
Lemma codeunit_consistent : Spec.consistent_collation CodeUnit.localeCompare.
Proof.
  assert (Hirr : forall a, ~ String_as_OT.lt a a)
    by (intros a; apply (StrictOrder_Irreflexive a)).
  assert (Htr : forall a b c, String_as_OT.lt a b -> String_as_OT.lt b c -> String_as_OT.lt a c)
    by (intros a b c; apply (StrictOrder_Transitive a b c)).
  split; unfold CodeUnit.localeCompare.
  - intros a b.
    destruct (String_as_OT.compare_spec a b) as [Eab|Hab|Hab];
      destruct (String_as_OT.compare_spec b a) as [Eba|Hba|Hba];
      try reflexivity; unfold String_as_OT.eq in *; subst; exfalso; eapply Hirr; eauto.
  - intros a b c.
    destruct (String_as_OT.compare_spec a b) as [Eab|Hab|Hab]; [unfold String_as_OT.eq in *; subst; tauto| |lia].
    destruct (String_as_OT.compare_spec b c) as [Ebc|Hbc|Hbc]; [unfold String_as_OT.eq in *; subst| |lia]; intros _ _.
    + destruct (String_as_OT.compare_spec a c) as [?|?|Hca]; [lia|lia|].
      exfalso; eapply Hirr; eauto.
    + destruct (String_as_OT.compare_spec a c) as [?|?|Hca]; [lia|lia|].
      exfalso; eapply Hirr; eauto.
Qed.

(** ** The catalogue stays ordered (ordering rule of the instance store) *)

Lemma applySession_keys todayKey instance_id duration_sec inst :
  id (App.applySession todayKey instance_id duration_sec inst) = id inst /\
  lastPlayed (App.applySession todayKey instance_id duration_sec inst) = lastPlayed inst.
Proof.
  unfold App.applySession. by destruct (String.eqb _ _).
Qed.

Section Ordered.
Variable localeCompare : string -> string -> Z.
Variable config : App.Config.
Hypothesis collation : Spec.consistent_collation localeCompare.

Local Abbreviation ordered w :=
  (StronglySorted (Spec.precedes localeCompare) (App.instances w)).

Lemma handleUpdateInstances_instances saveOk l w :
  App.instances (App.handleUpdateInstances localeCompare saveOk l w)
  = App.sortInstances localeCompare l.
Proof. unfold App.handleUpdateInstances. by destruct saveOk. Qed.

Lemma step_ordered w w' :
  Store.step localeCompare config w w' -> ordered w -> ordered w'.
Proof.
  destruct 1 as [isManual w w' Hload|saveOk l w|todayKey i d saveOk w
                 |seen inst response now saveOk w|d w]; intros Hw.
  - unfold App.loadInstancesData in Hload. simpl in Hload.
    destruct (App.disk w) as [[| | | |items|]|]; simplify_eq; simpl; try constructor;
      try exact Hw.
    destruct (Persist.as_instances items) as [l|]; simplify_eq/=.
    by apply sortInstances_StronglySorted.
  - rewrite handleUpdateInstances_instances. by apply sortInstances_StronglySorted.
  - simpl. eapply StronglySorted_fmap; [|exact Hw].
    intros x y. unfold Spec.precedes, Spec.played_at.
    destruct (applySession_keys todayKey i d x) as [-> ->].
    by destruct (applySession_keys todayKey i d y) as [-> ->].
  - unfold App.handleLaunch. destruct response; simpl; [|exact Hw].
    rewrite handleUpdateInstances_instances. by apply sortInstances_StronglySorted.
  - exact Hw.
Qed.

(** C5. Every catalogue the program produces is ordered: later
    [lastPlayed] first (a missing [lastPlayed] counts as 0), equal
    [lastPlayed] by id descending; so whatever stands before an entry
    that has been played has been played too. *)
Theorem catalogue_always_ordered w :
  Store.produced localeCompare config w ->
  StronglySorted (Spec.precedes localeCompare) (App.instances w) /\
  (forall i j a b,
      (i < j)%nat ->
      App.instances w !! i = Some a -> App.instances w !! j = Some b ->
      0 < Spec.played_at b -> 0 < Spec.played_at a).
Proof.
  intros [d Hrtc].
  assert (Hs : ordered w).
  { revert w Hrtc. apply (rtc_ind_r (fun w => ordered w)); [constructor|].
    intros y z _ Hstep Hy. eapply step_ordered; eauto. }
  split; [exact Hs|].
  intros i j a b Hij Ha Hb Hplayed.
  assert (Hab : Spec.precedes localeCompare a b).
  { clear Hrtc.
    revert i j Hij Ha Hb. induction Hs as [|x l Hl IH Hx]; intros i j Hij Ha Hb.
    - by rewrite lookup_nil in Ha.
    - destruct j as [|j]; [lia|]. destruct i as [|i]; simplify_eq/=.
      + rewrite Forall_forall in Hx. apply Hx. by eapply list_elem_of_lookup_2.
      + eapply (IH i j); eauto; lia. }
  destruct Hab as [?|[? _]]; lia.
Qed.
End Ordered.

Lemma catalogue_always_ordered_witness :
  StronglySorted (Spec.precedes CodeUnit.localeCompare)
                 (App.instances Examples.after_session) /\
  (forall i j a b,
      (i < j)%nat ->
      App.instances Examples.after_session !! i = Some a ->
      App.instances Examples.after_session !! j = Some b ->
      0 < Spec.played_at b -> 0 < Spec.played_at a).
Proof.
  apply (catalogue_always_ordered CodeUnit.localeCompare Examples.config
                                  codeunit_consistent).
  exists None.
  eapply rtc_l; [apply (Store.step_replace _ _ true [Examples.A; Examples.B])|].
  eapply rtc_l; [apply (Store.step_session _ _ "2024-01-02" "1700000000000" 50 true)|].
  apply rtc_refl.
Defined.

(** ** Persistence round trip *)

Lemma history_roundtrip h : Persist.as_history (Persist.history_to_json h) = Some h.
Proof.
  unfold Persist.as_history, Persist.history_to_json.
  rewrite mapM_fmap_Some by (by intros [k v]).
  simpl. by rewrite list_to_map_to_list.
Qed.

Lemma instance_roundtrip i :
  Persist.json_to_instance (Persist.instance_to_json i) = Some i.
Proof.
  destruct i as [i n inf b e bg lp tp ph].
  unfold Persist.json_to_instance, Persist.instance_to_json,
    Persist.required, Persist.optional.
  destruct bg, lp, tp, ph as [h|]; simpl; try reflexivity;
    pose proof (history_roundtrip h) as Hh;
    unfold Persist.as_history, Persist.history_to_json in Hh;
    rewrite Hh; reflexivity.
Qed.

Lemma catalogue_roundtrip l :
  Persist.as_instances (Persist.instance_to_json <$> l) = Some l.
Proof. apply mapM_fmap_Some, instance_roundtrip. Qed.

Section RoundTrip.
Variable localeCompare : string -> string -> Z.
Hypothesis collation : Spec.consistent_collation localeCompare.

End RoundTrip.


(** ** The play-session listener *)

Lemma gameFinished_instances todayKey instance_id d saveOk w :
  App.instances (App.gameFinished todayKey instance_id d saveOk w)
  = App.applySession todayKey instance_id d <$> App.instances w.
Proof. reflexivity. Qed.

Lemma applySession_other todayKey instance_id d inst :
  id inst ≠ instance_id -> App.applySession todayKey instance_id d inst = inst.
Proof.
  intros Hne. unfold App.applySession.
  by destruct (String.eqb_spec (id inst) instance_id).
Qed.

Lemma applySession_match todayKey d inst :
  App.applySession todayKey (id inst) d inst
  = mkGameInstance (id inst) (name inst) (info inst) (bottleName inst)
      (executablePath inst) (backgroundImage inst) (lastPlayed inst)
      (Some (Spec.seconds (totalPlayTime inst) + d))
      (Some (<[todayKey := Spec.played_on (playHistory inst) todayKey + d]>
               (default ∅ (playHistory inst)))).
Proof.
  unfold App.applySession, Spec.played_on.
  by rewrite String.eqb_refl, !or_zero_seconds.
Qed.

Lemma applySession_hit todayKey instance_id d inst :
  id inst = instance_id ->
  App.applySession todayKey instance_id d inst
  = mkGameInstance (id inst) (name inst) (info inst) (bottleName inst)
      (executablePath inst) (backgroundImage inst) (lastPlayed inst)
      (Some (Spec.seconds (totalPlayTime inst) + d))
      (Some (<[todayKey := Spec.played_on (playHistory inst) todayKey + d]>
               (default ∅ (playHistory inst)))).
Proof. intros <-. apply applySession_match. Qed.

Lemma applySession_absent todayKey instance_id d (l : list GameInstance) :
  (forall inst, inst ∈ l -> id inst ≠ instance_id) ->
  App.applySession todayKey instance_id d <$> l = l.
Proof.
  induction l as [|x l IH]; intros Hl; [reflexivity|].
  rewrite fmap_cons, applySession_other by (apply Hl; left).
  rewrite IH; [reflexivity|]. intros inst Hin. apply Hl. by right.
Qed.

(** C2. A play-session event changes the instances with the event's id
    and no other: the total grows by the duration, today's entry of the
    history grows by the duration, every other day and every other field
    stay; without such an instance the catalogue stays as it is. *)
Theorem play_session_merge todayKey instance_id d saveOk w :
  length (App.instances (App.gameFinished todayKey instance_id d saveOk w))
  = length (App.instances w) /\
  (forall k inst,
      App.instances w !! k = Some inst -> id inst ≠ instance_id ->
      App.instances (App.gameFinished todayKey instance_id d saveOk w) !! k = Some inst) /\
  (forall k inst,
      App.instances w !! k = Some inst -> id inst = instance_id ->
      exists inst' h',
        App.instances (App.gameFinished todayKey instance_id d saveOk w) !! k = Some inst' /\
        id inst' = id inst /\ name inst' = name inst /\ info inst' = info inst /\
        bottleName inst' = bottleName inst /\
        executablePath inst' = executablePath inst /\
        backgroundImage inst' = backgroundImage inst /\
        lastPlayed inst' = lastPlayed inst /\
        totalPlayTime inst' = Some (Spec.seconds (totalPlayTime inst) + d) /\
        playHistory inst' = Some h' /\
        h' !! todayKey = Some (Spec.played_on (playHistory inst) todayKey + d) /\
        (forall day, day ≠ todayKey -> h' !! day = default ∅ (playHistory inst) !! day)) /\
  ((forall inst, inst ∈ App.instances w -> id inst ≠ instance_id) ->
   App.instances (App.gameFinished todayKey instance_id d saveOk w) = App.instances w).
Proof.
  rewrite gameFinished_instances. repeat split.
  - apply length_fmap.
  - intros k inst Hk Hne. rewrite list_lookup_fmap, Hk. simpl.
    by rewrite applySession_other.
  - intros k inst Hk <-. rewrite list_lookup_fmap, Hk. simpl.
    rewrite applySession_match.
    eexists _, _. repeat split; simpl.
    + apply lookup_insert_eq.
    + intros day Hday. by rewrite lookup_insert_ne.
  - intros Hnone. by apply applySession_absent.
Qed.

(** The merge example of the specification: 100 seconds on a day and a
    same-day session of 50 seconds give 150, and the total grows by 50. *)
Example merge_same_day :
  (fun i => (totalPlayTime i, playHistory i)) <$>
    App.instances (App.gameFinished "2024-01-01" "1700000005000" 50 true
                     (App.mkWorld [Examples.A; Examples.B] None []))
  = [(Some 0, Some ∅); (Some 150, Some {[ "2024-01-01" := 150 ]})].
Proof. vm_compute. reflexivity. Qed.

(** C3, as stated, fails: a session of 0 seconds on a day the history has
    no entry for adds that day to the history, with 0 seconds. *)
Lemma zero_session_adds_today :
  playHistory <$> App.instances (App.mkWorld [Examples.A] None []) = [Some ∅] /\
  playHistory <$>
    App.instances (App.gameFinished "2024-01-02" "1700000000000" 0 true
                     (App.mkWorld [Examples.A] None []))
  = [Some {[ "2024-01-02" := 0 ]}] /\
  bool_decide
    (playHistory <$>
       App.instances (App.gameFinished "2024-01-02" "1700000000000" 0 true
                        (App.mkWorld [Examples.A] None []))
     = playHistory <$> App.instances (App.mkWorld [Examples.A] None []))
  = false.
Proof. vm_compute. auto. Qed.

(** C3, amended. A session of 0 seconds changes no amount: the total and
    the seconds of every day read the same (a missing entry reads 0), and
    an instance whose total is present and whose history has today's
    entry is left as it is.  On the instance of the event the total and
    today's entry are written back all the same, so a missing total
    becomes 0 and a missing entry for today becomes an entry of 0. *)
Theorem zero_session_keeps_amounts todayKey instance_id saveOk w :
  Forall2
    (fun inst inst' =>
       Spec.seconds (totalPlayTime inst') = Spec.seconds (totalPlayTime inst) /\
       (forall day,
           Spec.played_on (playHistory inst') day = Spec.played_on (playHistory inst) day) /\
       (forall t h s,
           totalPlayTime inst = Some t -> playHistory inst = Some h ->
           h !! todayKey = Some s -> inst' = inst) /\
       (id inst = instance_id ->
        totalPlayTime inst' = Some (Spec.seconds (totalPlayTime inst)) /\
        playHistory inst'
        = Some (<[todayKey := Spec.played_on (playHistory inst) todayKey]>
                  (default ∅ (playHistory inst)))))
    (App.instances w)
    (App.instances (App.gameFinished todayKey instance_id 0 saveOk w)).
Proof.
  rewrite gameFinished_instances.
  apply Forall2_fmap_r, Forall_Forall2_diag, Forall_forall. intros inst _.
  unfold compose.
  destruct (decide (id inst = instance_id)) as [<-|Hne].
  - rewrite applySession_match, !Z.add_0_r. simpl. repeat split.
    + intros day. unfold Spec.played_on. simpl.
      destruct (decide (day = todayKey)) as [->|Hday].
      * by rewrite lookup_insert_eq.
      * by rewrite lookup_insert_ne.
    + intros t h s Ht Hh Hs. destruct inst; simplify_eq/=.
      unfold Spec.played_on. simpl. rewrite Hs. simpl.
      by rewrite insert_id.
  - rewrite applySession_other by done. repeat split; try done.
Qed.

(** ** Total play time and play history agree *)

Lemma history_sum_empty : history_sum ∅ = 0.
Proof. apply map_fold_empty. Qed.

Lemma history_sum_insert_fresh (h : gmap string Z) day x :
  h !! day = None -> history_sum (<[day := x]> h) = x + history_sum h.
Proof.
  intros Hday. unfold history_sum.
  rewrite map_fold_insert_L; [reflexivity| |exact Hday].
  intros; lia.
Qed.

Lemma history_sum_delete (h : gmap string Z) day x :
  h !! day = Some x -> history_sum h = x + history_sum (delete day h).
Proof.
  intros Hday. unfold history_sum.
  rewrite (map_fold_delete_L _ _ day x h); [reflexivity| |exact Hday].
  intros; lia.
Qed.

(** Adding [d] seconds to a day adds [d] to the sum. *)
Lemma history_sum_add (h : gmap string Z) day d :
  history_sum (<[day := Spec.seconds (h !! day) + d]> h) = history_sum h + d.
Proof.
  destruct (h !! day) as [x|] eqn:Hday; simpl.
  - rewrite <- insert_delete_eq.
    rewrite history_sum_insert_fresh by apply lookup_delete_eq.
    rewrite (history_sum_delete h day x Hday). lia.
  - rewrite history_sum_insert_fresh by exact Hday. lia.
Qed.

Import Playtime.

Lemma settled_consistent i : settled_instance i -> Spec.playtime_consistent i.
Proof.
  intros [[Ht _]|(tv & hv & Ht & Hh & E)] t h Ht' Hh'; congruence.
Qed.

Lemma applySession_settled todayKey instance_id d inst :
  settled_instance inst ->
  settled_instance (App.applySession todayKey instance_id d inst).
Proof.
  intros Hs. destruct (decide (id inst = instance_id)) as [<-|Hne].
  - rewrite applySession_match. right. eexists _, _.
    split; [reflexivity|]. split; [reflexivity|].
    unfold Spec.played_on.
    destruct Hs as [[-> ->]|(tv & hv & -> & -> & ->)]; simpl.
    + rewrite history_sum_insert_fresh by apply lookup_empty.
      rewrite lookup_empty, history_sum_empty. simpl. lia.
    + by rewrite history_sum_add.
  - by rewrite applySession_other.
Qed.

Lemma overlay_settled i fd :
  settled_instance i -> settled (p_totalPlayTime fd) (p_playHistory fd) ->
  settled_instance (overlay i fd).
Proof.
  unfold settled_instance.
  intros Hi [[Ht Hh]|(tv & hv & Ht & Hh & E)]; simpl; rewrite Ht, Hh; simpl.
  - exact Hi.
  - right. eauto.
Qed.

Lemma setFormField_settled k v fd :
  settled (p_totalPlayTime fd) (p_playHistory fd) ->
  settled (p_totalPlayTime (InstancesPageV1.setFormField k v fd))
          (p_playHistory (InstancesPageV1.setFormField k v fd)).
Proof. by destruct k. Qed.

Lemma importItem_settled uuid item :
  settled_instance (InstancesPage.importItem uuid item).
Proof. by left. Qed.

Section Invariant.
Variable localeCompare : string -> string -> Z.
Variable config : App.Config.

Local Abbreviation all_settled := (Forall settled_instance).

Lemma sort_settled {cmp} l : all_settled l -> all_settled (JS.sort cmp l).
Proof.
  rewrite !Forall_forall. intros Hl i.
  rewrite elem_of_sort. apply Hl.
Qed.

Lemma replaceAll_settled saveOk calls w :
  Forall all_settled calls -> all_settled (App.instances w) ->
  all_settled (App.instances (System.replaceAll localeCompare saveOk calls w)).
Proof.
  unfold System.replaceAll. intros Hcalls. revert w.
  induction Hcalls as [|l calls Hl _ IH]; intros w Hw; simpl; [exact Hw|].
  apply IH. rewrite handleUpdateInstances_instances. by apply sort_settled.
Qed.

Lemma handleSave_settled instances now st :
  all_settled instances ->
  settled (p_totalPlayTime (InstancesPageV1.formData st))
          (p_playHistory (InstancesPageV1.formData st)) ->
  Forall all_settled (InstancesPageV1.calls (InstancesPageV1.handleSave instances now st)) /\
  settled (p_totalPlayTime (InstancesPageV1.formData
             (InstancesPageV1.page (InstancesPageV1.handleSave instances now st))))
          (p_playHistory (InstancesPageV1.formData
             (InstancesPageV1.page (InstancesPageV1.handleSave instances now st)))).
Proof.
  intros Hl Hfd. unfold InstancesPageV1.handleSave.
  destruct (_ || _); [by split; [constructor|]|].
  destruct (InstancesPageV1.isCreating st); simpl.
  - split; [|exact Hfd]. constructor; [|constructor].
    apply Forall_app. split; [exact Hl|].
    constructor; [|constructor]. right. exists 0, ∅.
    by rewrite history_sum_empty.
  - destruct (JS.truthy (InstancesPageV1.selectedId st)); simpl;
      (split; [|exact Hfd]); (constructor; [|constructor]); [|exact Hl].
    apply Forall_fmap. eapply Forall_impl; [exact Hl|].
    intros i Hi. simpl. destruct (String.eqb _ _); [|exact Hi].
    by apply overlay_settled.
Qed.

Lemma step_invariant s s' :
  System.step localeCompare config s s' -> invariant s -> invariant s'.
Proof.
  destruct 1 as [s|s inst Hin|s k v|s now saveOk|s target saveOk Hin
                 |s todayKey iid d saveOk|s inst Hin
                 |s before seen inst after response now saveOk Hl
                 |s randomUUID b saveOk];
    intros (Hw & Hfd & Hla); unfold invariant; simpl.
  - repeat split; try done. by left.
  - repeat split; try done.
    rewrite Forall_forall in Hw. by apply Hw.
  - repeat split; try done. by apply setFormField_settled.
  - destruct (handleSave_settled (App.instances (System.world s)) now (System.page s) Hw Hfd)
      as [Hcalls Hfd'].
    repeat split; try done. by apply replaceAll_settled.
  - repeat split; try done.
    rewrite handleUpdateInstances_instances. apply sort_settled.
    rewrite Forall_forall in *. intros i Hi.
    apply list_elem_of_filter in Hi as [_ Hi]. by apply Hw.
  - repeat split; try done. apply Forall_fmap.
    eapply Forall_impl; [exact Hw|]. intros i Hi. by apply applySession_settled.
  - repeat split; try done. by constructor.
  - rewrite Hl in Hla. apply Forall_app in Hla as [Hb Ha].
    apply Forall_cons in Ha as [Hseen Ha]. simpl in Hseen.
    repeat split; try done; [|by apply Forall_app].
    unfold App.handleLaunch. destruct response; simpl; [|exact Hw].
    rewrite handleUpdateInstances_instances. apply sort_settled, sort_settled.
    apply Forall_fmap. eapply Forall_impl; [exact Hseen|].
    intros i Hi. simpl. by destruct (String.eqb _ _).
  - repeat split; try done. apply replaceAll_settled; [|exact Hw].
    unfold InstancesPage.handleConfirmBatchImport.
    destruct (_ =? _)%nat; simpl; constructor; [|constructor].
    apply Forall_app. split; [exact Hw|].
    apply Forall_forall. intros i Hi.
    apply elem_of_lookup_imap_1 in Hi as (k & item & -> & _).
    apply importItem_settled.
Qed.

(** C4. Starting from the empty catalogue, creation, edit-save, delete,
    launch, play-session events and batch-import commits, in any
    order, keep the total play time of every instance equal to the sum
    of its play history whenever both are present. *)
Theorem playtime_matches_history d s :
  System.reachable localeCompare config d s ->
  forall i, i ∈ App.instances (System.world s) -> Spec.playtime_consistent i.
Proof.
  intros Hreach.
  assert (Hinv : invariant s).
  { revert s Hreach. apply (rtc_ind_r (fun s => invariant s)).
    - unfold invariant; simpl. split; [constructor|]. split; [by left|constructor].
    - intros y z _ Hstep Hy. eapply step_invariant; eauto. }
  intros i Hi. apply settled_consistent.
  destruct Hinv as [Hw _].
  rewrite Forall_forall in Hw. by apply Hw.
Qed.
End Invariant.

Example created_catalogue : App.instances (System.world Runs.created) = [Runs.alpha].
Proof. vm_compute. reflexivity. Qed.

Example renamed_and_played_catalogue :
  App.instances (System.world Runs.save_then_session) = [Runs.alpha_played].
Proof. vm_compute. reflexivity. Qed.

Lemma playtime_matches_history_witness : Spec.playtime_consistent Runs.alpha_played.
Proof.
  apply (playtime_matches_history CodeUnit.localeCompare Examples.config None
                                  Runs.save_then_session);
    [|rewrite renamed_and_played_catalogue; left].
  unfold System.reachable.
  eapply rtc_l; [apply System.step_startCreate|].
  eapply rtc_l; [apply (System.step_editField _ _ _ InstancesPageV1.K_name "Alpha")|].
  eapply rtc_l; [apply (System.step_editField _ _ _ InstancesPageV1.K_executablePath
                          "C:/alpha/start.exe")|].
  eapply rtc_l; [apply (System.step_save _ _ _ Runs.created_at true)|].
  eapply rtc_l; [apply (System.step_startEdit _ _ _ Runs.alpha)|].
  { change (Runs.alpha ∈ App.instances (System.world Runs.created)).
    rewrite created_catalogue. left. }
  eapply rtc_l; [apply (System.step_editField _ _ _ InstancesPageV1.K_name "Alpha Renamed")|].
  eapply rtc_l; [apply (System.step_save _ _ _ Runs.created_at true)|].
  eapply rtc_l; [apply (System.step_session _ _ _ Runs.today "1700000000000" 50 true)|].
  apply rtc_refl.
Defined.

(** ** The launch coordinator *)

(** C10. A failed launch leaves the catalogue and the disk as they are
    and writes nothing: it only logs the request, the error and the error
    toast.  A launch that succeeds stamps [lastPlayed] with the current
    time on the instance launched, hands the re-sorted list to
    [handleUpdateInstances], and that list is what is saved. *)
Theorem launch_failure_is_inert localeCompare config seen instance now saveOk w :
  (App.instances (App.handleLaunch localeCompare config seen instance None now saveOk w)
   = App.instances w /\
   App.disk (App.handleLaunch localeCompare config seen instance None now saveOk w)
   = App.disk w /\
   App.effects (App.handleLaunch localeCompare config seen instance None now saveOk w)
   = App.effects w ++
     [App.InvokeLaunch (id instance)
        (App.bottlesPath config +:+ "/" +:+ bottleName instance)
        (executablePath instance) (App.crossoverPath config);
      App.ConsoleError; App.Toast App.error]) /\
  (forall pid,
      let w' := App.handleLaunch localeCompare config seen instance (Some pid) now saveOk w in
      App.instances w'
      = App.sortInstances localeCompare
          (JS.sort App.compareLastPlayed
             ((fun i => if String.eqb (id i) (id instance)
                        then App.with_lastPlayed now i else i) <$> seen)) /\
      length (App.instances w') = length seen /\
      (forall i, i ∈ App.instances w' -> id i = id instance -> lastPlayed i = Some now) /\
      (forall i, i ∈ App.instances w' -> id i ≠ id instance -> i ∈ seen) /\
      App.InvokeSave (Persist.stringify (App.instances w')) ∈ App.effects w' /\
      (saveOk = true -> App.disk w' = Some (Persist.stringify (App.instances w')))).
Proof.
  split.
  { split; [reflexivity|]. split; [reflexivity|]. simpl. by rewrite <- app_assoc. }
  intros pid w'. subst w'. unfold App.handleLaunch.
  rewrite handleUpdateInstances_instances.
  split; [reflexivity|]. split; [|split; [|split; [|split]]].
  - unfold App.sortInstances. by rewrite !length_sort, length_fmap.
  - intros i Hi Hid. unfold App.sortInstances in Hi.
    rewrite !elem_of_sort in Hi. apply list_elem_of_fmap in Hi as (j & -> & Hj).
    destruct (String.eqb_spec (id j) (id instance)) as [E|E]; [reflexivity|done].
  - intros i Hi Hid. unfold App.sortInstances in Hi.
    rewrite !elem_of_sort in Hi. apply list_elem_of_fmap in Hi as (j & -> & Hj).
    destruct (String.eqb_spec (id j) (id instance)) as [E|E]; [done|exact Hj].
  - unfold App.handleUpdateInstances. destruct saveOk; simpl; set_solver.
  - intros ->. reflexivity.
Qed.

(** ** Batch-import commit *)

Lemma or_else_filled a b : JS.or_else a b = Spec.nullish (Spec.filled a) b.
Proof. by destruct a as [[|c s]|]. Qed.

Lemma or_string_filled a d : JS.or_string a d = default d (Spec.filled a).
Proof. by destruct a as [[|c s]|]. Qed.

Lemma filled_nullish a b :
  Spec.filled (Spec.nullish (Spec.filled a) b)
  = Spec.nullish (Spec.filled a) (Spec.filled b).
Proof. by destruct a as [[|c s]|]. Qed.

(** C7, as stated, fails: a manual name that is present but empty does
    not win over the title of the matched result, as [??] would have it. *)
Lemma cleared_manual_name_falls_through :
  name <$> concat (InstancesPage.calls
             (InstancesPage.handleConfirmBatchImport Batches.randomUUID []
                (InstancesPage.mkBatch [Batches.item_cleared] true)))
  = ["Found Title"] /\
  Spec.name_by_nullish Batches.item_cleared = "" /\
  bool_decide
    (name <$> concat (InstancesPage.calls
                (InstancesPage.handleConfirmBatchImport Batches.randomUUID []
                   (InstancesPage.mkBatch [Batches.item_cleared] true)))
     = [Spec.name_by_nullish Batches.item_cleared])
  = false.
Proof. vm_compute. auto. Qed.

(** The batch example of the specification: of three items with
    [selected = [true, false, true]] two instances are built and appended
    to the prior catalogue, in one call. *)
Example commit_two_of_three :
  (fun l : list GameInstance => name <$> l) <$>
    InstancesPage.calls
      (InstancesPage.handleConfirmBatchImport Batches.randomUUID [Examples.B]
         (InstancesPage.mkBatch Batches.three true))
  = [["Beta"; "One"; "Found Title"]].
Proof. vm_compute. reflexivity. Qed.

(** C7, amended. The commit builds one instance for each selected item
    and for no other, in order: the name is the first of the manual name
    and the matched title that is present and not empty, else the
    directory name; the background image is the manual one when present
    and not empty, else the matched cover; executable and bottle are the
    item's.  All of them go, behind the prior catalogue, into a single
    call of [setInstances]; with no item selected there is no call, the
    batch stays open and the catalogue stays as it is. *)
Theorem batch_commit randomUUID instances st :
  let toImport := filter (fun i => BatchItem.selected i = true)
                         (InstancesPage.batchItems st) in
  let o := InstancesPage.handleConfirmBatchImport randomUUID instances st in
  (toImport = [] ->
   InstancesPage.calls o = [] /\ InstancesPage.batch o = st /\
   InstancesPage.toasts o = [App.error] /\
   forall localeCompare saveOk s,
     instances = App.instances (System.world s) ->
     App.instances (System.world (System.commit localeCompare randomUUID st saveOk s))
     = App.instances (System.world s) /\
     App.disk (System.world (System.commit localeCompare randomUUID st saveOk s))
     = App.disk (System.world s)) /\
  (toImport ≠ [] ->
   exists newInstances,
     InstancesPage.calls o = [instances ++ newInstances] /\
     InstancesPage.batch o = InstancesPage.mkBatch [] false /\
     length newInstances = length toImport /\
     forall k item,
       toImport !! k = Some item ->
       exists g,
         newInstances !! k = Some g /\
         id g = randomUUID k /\
         name g = default (BatchItem.dirName item)
                    (Spec.nullish
                       (Spec.filled (p_name (BatchItem.manualInfo item)))
                       (Spec.filled (SearchResult.title <$> BatchItem.matchedResult item))) /\
         backgroundImage g
         = Spec.nullish
             (Spec.filled (p_backgroundImage (BatchItem.manualInfo item)))
             (SearchResult.cover <$> BatchItem.matchedResult item) /\
         executablePath g = BatchItem.selectedExec item /\
         bottleName g = BatchItem.bottleName item /\
         lastPlayed g = None /\ totalPlayTime g = None /\ playHistory g = None).
Proof.
  intros toImport o. subst o. unfold InstancesPage.handleConfirmBatchImport.
  fold toImport. split.
  - intros E. rewrite E. simpl. do 3 (split; [reflexivity|]).
    intros localeCompare saveOk s ->.
    unfold System.commit, InstancesPage.handleConfirmBatchImport.
    fold toImport. by rewrite E.
  - intros Hne.
    destruct (Nat.eqb_spec (length toImport) 0) as [E|_].
    { by apply nil_length_inv in E. }
    eexists. repeat split.
    + apply length_imap.
    + intros k item Hk. eexists.
      split; [by rewrite list_lookup_imap, Hk|].
      unfold InstancesPage.importItem. simpl.
      rewrite or_string_filled, !or_else_filled, filled_nullish. by repeat split.
Qed.

(** ** Batch matching *)

Lemma merge_id item u : BatchItem.id (BatchItem.merge item u) = BatchItem.id item.
Proof. reflexivity. Qed.

Lemma NoDup_ids_filter (P : BatchItem.t -> Prop) `{forall x, Decision (P x)} l :
  NoDup (BatchItem.id <$> l) -> NoDup (BatchItem.id <$> filter P l).
Proof.
  induction l as [|x l IH]; [done|].
  rewrite fmap_cons, NoDup_cons. intros [Hx Hl].
  rewrite filter_cons. destruct (decide (P x)); [|by apply IH].
  rewrite fmap_cons, NoDup_cons. split; [|by apply IH].
  intros Hin. apply Hx. apply list_elem_of_fmap in Hin as (y & -> & Hy).
  apply list_elem_of_fmap_2. by apply list_elem_of_filter in Hy as [_ Hy].
Qed.

Lemma NoDup_ids_inj (l : list BatchItem.t) x y :
  NoDup (BatchItem.id <$> l) -> x ∈ l -> y ∈ l ->
  BatchItem.id x = BatchItem.id y -> x = y.
Proof.
  induction l as [|z l IH]; [by intros _ Hx; apply elem_of_nil in Hx|].
  rewrite fmap_cons, NoDup_cons. intros [Hz Hl] Hx Hy E.
  apply elem_of_cons in Hx as [->|Hx]; apply elem_of_cons in Hy as [->|Hy];
    try done.
  - exfalso. apply Hz. rewrite E. by apply list_elem_of_fmap_2.
  - exfalso. apply Hz. rewrite <- E. by apply list_elem_of_fmap_2.
  - by apply IH.
Qed.

Section Matching.
Variable get_directory_keywords : string -> option (list string).
Variable search_game : string -> string -> option (list SearchResult.t).

Local Abbreviation fetch := (InstancesPage.fetchGameResults search_game).
Local Abbreviation candidates :=
  (InstancesPage.candidates get_directory_keywords search_game).
Local Abbreviation verdict := (InstancesPage.verdict get_directory_keywords search_game).
Local Abbreviation turns := (InstancesPage.turns get_directory_keywords search_game).
Local Abbreviation to_match := InstancesPage.eligible.

Lemma fetch_no_keywords : fetch [] = [].
Proof. reflexivity. Qed.

Lemma matchItem_verdict item :
  InstancesPage.matchItem get_directory_keywords search_game item
  = InstancesPage.updateBatchItem (BatchItem.id item) (verdict item).
Proof.
  unfold InstancesPage.matchItem, InstancesPage.verdict, InstancesPage.candidates.
  destruct (get_directory_keywords _) as [[|kw kws]|]; try reflexivity.
  simpl. by destruct (fetch (kw :: kws)).
Qed.

Lemma elem_of_itemsToMatch l item :
  item ∈ InstancesPage.itemsToMatch l <-> to_match item = true /\ item ∈ l.
Proof.
  unfold InstancesPage.itemsToMatch. by rewrite list_elem_of_filter.
Qed.

Lemma turns_cons x xs item :
  turns (x :: xs) item
  = turns xs (if String.eqb (BatchItem.id item) (BatchItem.id x)
              then BatchItem.merge item (verdict x) else item).
Proof. reflexivity. Qed.

Lemma turns_app xs1 xs2 item : turns (xs1 ++ xs2) item = turns xs2 (turns xs1 item).
Proof. apply foldl_app. Qed.

Lemma run_turns xs l :
  InstancesPage.run
    (InstancesPage.matchItem get_directory_keywords search_game <$> xs) l
  = turns xs <$> l.
Proof.
  revert l. induction xs as [|x xs IH]; intros l.
  - unfold InstancesPage.run, InstancesPage.turns. simpl.
    induction l; [done|]. simpl. by f_equal.
  - unfold InstancesPage.run in *. rewrite fmap_cons. simpl.
    rewrite IH, matchItem_verdict. unfold InstancesPage.updateBatchItem.
    rewrite <- list_fmap_compose. reflexivity.
Qed.

Lemma turns_foreign xs item :
  (forall x, x ∈ xs -> BatchItem.id x ≠ BatchItem.id item) -> turns xs item = item.
Proof.
  revert item. induction xs as [|x xs IH]; intros item Hxs; [reflexivity|].
  rewrite turns_cons.
  destruct (String.eqb_spec (BatchItem.id item) (BatchItem.id x)) as [E|_].
  - exfalso. by apply (Hxs x); [left|].
  - apply IH. intros y Hy. apply Hxs. by right.
Qed.

Lemma turns_own xs item item' :
  NoDup (BatchItem.id <$> xs) -> item ∈ xs ->
  BatchItem.id item' = BatchItem.id item ->
  turns xs item' = BatchItem.merge item' (verdict item).
Proof.
  intros Hnd Hin Hid.
  apply list_elem_of_split in Hin as (xs1 & xs2 & ->).
  rewrite fmap_app, fmap_cons in Hnd.
  apply NoDup_app in Hnd as (_ & H1 & H2). apply NoDup_cons in H2 as [H2 _].
  rewrite turns_app, turns_cons.
  rewrite (turns_foreign xs1).
  - rewrite Hid, String.eqb_refl. apply turns_foreign.
    intros x Hx E. rewrite merge_id in E. apply H2. rewrite <- Hid, <- E.
    by apply list_elem_of_fmap_2.
  - intros x Hx E. apply (H1 (BatchItem.id x)).
    + by apply list_elem_of_fmap_2.
    + rewrite E, Hid. left.
Qed.

Lemma markMatching_spec l item :
  NoDup (BatchItem.id <$> l) -> item ∈ l ->
  existsb (fun i => String.eqb (BatchItem.id i) (BatchItem.id item))
          (InstancesPage.itemsToMatch l)
  = to_match item.
Proof.
  intros Hnd Hin. apply eq_true_iff_eq.
  rewrite existsb_exists. split.
  - intros (x & Hx & E). apply list_elem_of_In, elem_of_itemsToMatch in Hx as [Hm Hx].
    apply String.eqb_eq in E. by rewrite <- (NoDup_ids_inj l x item).
  - intros Hm. exists item. rewrite String.eqb_refl. split; [|done].
    apply list_elem_of_In, elem_of_itemsToMatch. done.
Qed.

(** The loop one turn at a time: after the first update and [n] turns
    the first [n] items to match have their verdict and the others are
    still matching. *)
Lemma batch_matching_progress n batchItems k item :
  NoDup (BatchItem.id <$> batchItems) ->
  batchItems !! k = Some item ->
  to_match item = true ->
  InstancesPage.run
    (take (S n) (InstancesPage.handleStartBatchMatching get_directory_keywords
                   search_game batchItems)) batchItems !! k
  = Some (if bool_decide (BatchItem.id item ∈
              BatchItem.id <$> take n (InstancesPage.itemsToMatch batchItems))
          then BatchItem.merge (BatchItem.with_matching item) (verdict item)
          else BatchItem.with_matching item).
Proof.
  intros Hnd Hk Hm.
  assert (Hin : item ∈ batchItems) by (by eapply list_elem_of_lookup_2).
  unfold InstancesPage.handleStartBatchMatching.
  rewrite firstn_cons, <- fmap_take. unfold InstancesPage.run. simpl.
  change (foldl (fun s u => u s) ?a ?us) with (InstancesPage.run us a).
  rewrite run_turns. unfold InstancesPage.markMatching.
  rewrite !list_lookup_fmap, Hk. simpl. rewrite markMatching_spec, Hm by done.
  f_equal.
  assert (Hsub : forall x, x ∈ take n (InstancesPage.itemsToMatch batchItems) ->
                           x ∈ InstancesPage.itemsToMatch batchItems).
  { intros x Hx. apply list_elem_of_lookup in Hx as [i Hi].
    apply lookup_take_Some in Hi as [Hi _]. by eapply list_elem_of_lookup_2. }
  case_bool_decide as Hid.
  - apply list_elem_of_fmap in Hid as (x & E & Hx).
    assert (x = item) as ->.
    { pose proof (Hsub x Hx) as Hx'. apply elem_of_itemsToMatch in Hx' as [_ Hx'].
      by apply (NoDup_ids_inj batchItems). }
    apply turns_own; [|done|done].
    pose proof (NoDup_ids_filter (fun i => to_match i = true) batchItems Hnd) as Hnd'.
    fold (InstancesPage.itemsToMatch batchItems) in Hnd'.
    rewrite <- (take_drop n (InstancesPage.itemsToMatch batchItems)), fmap_app in Hnd'.
    by apply NoDup_app in Hnd' as [Hnd' _].
  - apply turns_foreign. intros x Hx E. apply Hid.
    apply list_elem_of_fmap. exists x. by split.
Qed.
End Matching.


(** ** The metadata search aggregator *)





Section FirstSeen.
Context {K : Type} `{EqDecision K}.

Lemma elem_of_first_seen (k : K) ks : k ∈ Spec.first_seen ks <-> k ∈ ks.
Proof.
  induction ks as [|a ks IH]; [done|]. simpl.
  rewrite !elem_of_cons, list_elem_of_filter, IH.
  destruct (decide (k = a)); tauto.
Qed.

Lemma first_seen_NoDup (ks : list K) : NoDup (Spec.first_seen ks).
Proof.
  induction ks as [|a ks IH]; simpl; [constructor|].
  apply NoDup_cons. split; [|by apply NoDup_filter].
  rewrite list_elem_of_filter. tauto.
Qed.

Lemma first_seen_snoc (k : K) ks :
  Spec.first_seen (ks ++ [k])
  = if decide (k ∈ ks) then Spec.first_seen ks else Spec.first_seen ks ++ [k].
Proof.
  induction ks as [|a ks IH]; [done|].
  change (Spec.first_seen ((a :: ks) ++ [k]))
    with (a :: filter (fun k' => k' ≠ a) (Spec.first_seen (ks ++ [k]))).
  change (Spec.first_seen (a :: ks))
    with (a :: filter (fun k' => k' ≠ a) (Spec.first_seen ks)).
  rewrite IH. clear IH.
  destruct (decide (k ∈ ks)) as [Hin|Hin], (decide (k ∈ a :: ks)) as [Hin'|Hin'];
    try done.
  - exfalso. apply Hin'. by right.
  - apply elem_of_cons in Hin' as [->|?]; [|done].
    by rewrite filter_app, filter_cons_False, filter_nil, app_nil_r by (intros ?; done).
  - rewrite filter_app, filter_cons_True, filter_nil; [done|].
    intros ->. apply Hin'. left.
Qed.

Context {V : Type}.

Lemma map_set_keys (k : K) (v : V) m :
  (JS.map_set k v m).*1 = if decide (k ∈ m.*1) then m.*1 else m.*1 ++ [k].
Proof.
  induction m as [|[k' v'] m IH]; [done|].
  change (JS.map_set k v ((k', v') :: m))
    with (if decide (k = k') then (k, v) :: m else (k', v') :: JS.map_set k v m).
  destruct (decide (k = k')) as [->|Hne]; rewrite !fmap_cons; simpl.
  - by rewrite decide_True by left.
  - rewrite IH.
    destruct (decide (k ∈ m.*1)) as [Hin|Hin], (decide (k ∈ k' :: m.*1)) as [Hin'|Hin'];
      try done.
    + exfalso. apply Hin'. by right.
    + apply elem_of_cons in Hin' as [?|?]; done.
Qed.

Lemma Forall_map_set (P : K * V -> Prop) k v m :
  NoDup m.*1 -> P (k, v) -> Forall (fun kv => kv.1 ≠ k -> P kv) m ->
  Forall P (JS.map_set k v m).
Proof.
  induction m as [|[k' v'] m IH]; simpl; intros Hnd Hkv Hm.
  - by constructor.
  - apply NoDup_cons in Hnd as [Hk' Hnd]. apply Forall_cons in Hm as [Hhd Hm].
    destruct (decide (k = k')) as [->|Hne].
    + constructor; [done|]. rewrite Forall_forall in *.
      intros [k0 v0] Hin. apply Hm; [done|]. simpl. intros ->.
      apply Hk'. by apply (list_elem_of_fmap_2 fst) in Hin.
    + constructor; [by apply Hhd|by apply IH].
Qed.

End FirstSeen.


Section Dedup.
Context {K : Type} `{EqDecision K} (key : SearchResult.t -> K).

Lemma collect_snoc l x : InstancesPage.collect key (l ++ [x]) = JS.map_set (key x) x (InstancesPage.collect key l).
Proof. unfold InstancesPage.collect. by rewrite foldl_app. Qed.

Lemma collect_spec l :
  (InstancesPage.collect key l).*1 = Spec.first_seen (key <$> l) /\
  Forall (fun kv => Spec.last_with key kv.1 l = Some kv.2) (InstancesPage.collect key l).
Proof.
  induction l as [|x l [IHk IHv]] using rev_ind; [by split; [|constructor]|].
  rewrite collect_snoc. split.
  - rewrite map_set_keys, fmap_snoc, first_seen_snoc, IHk. simpl.
    destruct (decide (key x ∈ Spec.first_seen (key <$> l))) as [Hin|Hin],
             (decide (key x ∈ key <$> l)) as [Hin'|Hin']; try done;
      rewrite elem_of_first_seen in Hin; done.
  - apply Forall_map_set.
    + rewrite IHk. apply first_seen_NoDup.
    + unfold Spec.last_with. simpl.
      by rewrite filter_app, filter_cons_True, filter_nil, last_snoc.
    + eapply Forall_impl; [exact IHv|]. intros [k v] Hv Hne. simpl in *.
      unfold Spec.last_with in *.
      by rewrite filter_app, filter_cons_False, filter_nil, app_nil_r by (intros ?; done).
Qed.


End Dedup.





(** The deduplication example of the specification: two providers that
    return the same title give one entry per (title, source), the last
    one written, in the order first seen; the failed request counts for
    nothing. *)
Example dedup_two_providers :
  InstancesPage.fetchGameResults Searches.search_game ["alpha"; "beta"]
  = [Searches.t1'; Searches.k1].
Proof. vm_compute. reflexivity. Qed.


(** Results that come from the two providers never collide. *)
Lemma list_ascii_app (a b : string) :
  list_ascii_of_string (a +:+ b) = list_ascii_of_string a ++ list_ascii_of_string b.
Proof. induction a as [|c a IH]; simpl; [done|]. by rewrite IH. Qed.

Lemma append_same_length_inj (a b s s' : string) :
  String.length s = String.length s' -> a +:+ s = b +:+ s' -> a = b /\ s = s'.
Proof.
  intros Hlen E. apply (f_equal list_ascii_of_string) in E.
  rewrite !list_ascii_app in E.
  apply app_inj_2 in E as [Ea Es].
  - split; apply (f_equal string_of_list_ascii) in Ea, Es;
      by rewrite !string_of_list_ascii_of_string in *.
  - clear E. revert s' Hlen. induction s as [|c s IH]; intros [|c' s']; simpl;
      intros Hlen; try done. f_equal. apply IH. by injection Hlen.
Qed.

Lemma provider_keys_distinct (a b : SearchResult.t) :
  SearchResult.source a ∈ ["touchgal"; "kungal"] ->
  SearchResult.source b ∈ ["touchgal"; "kungal"] ->
  InstancesPage.dedupKey a = InstancesPage.dedupKey b ->
  Spec.identity a = Spec.identity b.
Proof.
  unfold InstancesPage.dedupKey, Spec.identity.
  destruct a as [ia ta ca sa ua], b as [ib tb cb sb ub]. simpl.
  intros Ha Hb E.
  assert (Hcross : forall t t', t +:+ "touchgal" = t' +:+ "kungal" -> False).
  { intros t t' E'.
    assert (E2 : (t +:+ "to") +:+ "uchgal" = t' +:+ "kungal").
    { rewrite <- E'. clear. induction t as [|c t IH]; [done|].
      change (String c ((t +:+ "to") +:+ "uchgal") = String c (t +:+ "touchgal")).
      f_equal. exact IH. }
    apply append_same_length_inj in E2 as [_ E2]; [|done].
    discriminate E2. }
  repeat (apply elem_of_cons in Ha as [->|Ha]); [| |by apply elem_of_nil in Ha];
    repeat (apply elem_of_cons in Hb as [->|Hb]); try (by apply elem_of_nil in Hb).
  - apply append_same_length_inj in E as [-> _]; done.
  - by apply Hcross in E.
  - symmetry in E. by apply Hcross in E.
  - apply append_same_length_inj in E as [-> _]; done.
Qed.

(** The batch-status example of the specification: an item whose path
    yields no keyword ends unmatched with no search results; an item
    that is not selected stays pending. *)
Example no_keywords_is_unmatched :
  (fun i => (BatchItem.status i, BatchItem.searchResults i)) <$>
    InstancesPage.run
      (InstancesPage.handleStartBatchMatching Searches.get_directory_keywords
         Searches.search_game
         [Batches.item "b-4" true "Four" BatchItem.pending None empty_partial;
          Batches.item "b-5" false "Five" BatchItem.pending None empty_partial])
      [Batches.item "b-4" true "Four" BatchItem.pending None empty_partial;
       Batches.item "b-5" false "Five" BatchItem.pending None empty_partial]
  = [(BatchItem.unmatched, []); (BatchItem.pending, [])].
Proof. vm_compute. reflexivity. Qed.

(** ** An edit racing a play-session event *)

(** C1, evaluated.  An instance made by the create form is being renamed
    in the edit form when a session of 50 seconds ends.  If the save runs
    first, the catalogue has the new name and the 50 seconds.  If the
    event runs first, the save that follows writes the form's copy of
    [totalPlayTime] and [playHistory] back: the name is the new one and
    the 50 seconds are gone. *)
Theorem rename_racing_session :
  Runs.summary Runs.editing = [("Alpha", Some 0, Some ∅)] /\
  Runs.summary Runs.save_then_session
  = [("Alpha Renamed", Some 50, Some {[ Runs.today := 50 ]})] /\
  Runs.summary Runs.session_then_save = [("Alpha Renamed", Some 0, Some ∅)].
Proof. vm_compute. auto. Qed.

Lemma truthy_Some s : s ≠ "" -> JS.truthy (Some s) = true.
Proof. by destruct s. Qed.

Section Race.
Variable localeCompare : string -> string -> Z.

Lemma save_renaming A n now saveOk s :
  n ≠ "" -> executablePath A ≠ "" -> id A ≠ "" ->
  App.instances (System.world (System.save localeCompare now saveOk (System.renaming A n s)))
  = App.sortInstances localeCompare
      ((fun i => if String.eqb (id i) (id A) then System.renamed A n i else i)
         <$> App.instances (System.world s)).
Proof.
  intros Hn He Hi. unfold System.save, InstancesPageV1.handleSave, System.renaming.
  cbn [System.page System.world InstancesPageV1.editField InstancesPageV1.handleStartEdit
       InstancesPageV1.formData InstancesPageV1.isCreating InstancesPageV1.selectedId
       InstancesPageV1.setFormField spread p_name p_executablePath].
  rewrite !truthy_Some by done. simpl.
  by rewrite handleUpdateInstances_instances.
Qed.

(** Save first, event second: the catalogue holds the new name and the
    seconds of the session. *)
Lemma save_then_session_keeps_both A n d todayKey now ok1 ok2 s :
  A ∈ App.instances (System.world s) ->
  n ≠ "" -> executablePath A ≠ "" -> id A ≠ "" ->
  exists i,
    i ∈ App.instances (System.world
           (System.session todayKey (id A) d ok2
              (System.save localeCompare now ok1 (System.renaming A n s)))) /\
    id i = id A /\ name i = n /\
    totalPlayTime i = Some (Spec.seconds (totalPlayTime A) + d) /\
    Spec.played_on (playHistory i) todayKey
    = Spec.played_on (playHistory A) todayKey + d.
Proof.
  intros HA Hn He Hi.
  exists (App.applySession todayKey (id A) d (System.renamed A n A)).
  split.
  - unfold System.session. cbn [System.world]. rewrite gameFinished_instances.
    apply list_elem_of_fmap_2. rewrite save_renaming by done.
    apply elem_of_sort. apply list_elem_of_fmap.
    exists A. by rewrite String.eqb_refl.
  - rewrite (applySession_hit _ (id A) _ (System.renamed A n A)) by reflexivity. simpl.
    repeat split.
    + destruct (totalPlayTime A); reflexivity.
    + unfold Spec.played_on. simpl. rewrite lookup_insert_eq. simpl.
      destruct (playHistory A); reflexivity.
Qed.

(** Event first, save second: whatever total and history the form
    copied when it was opened are written back over the event's. *)
Lemma session_then_save_restores_form A n d todayKey now ok1 ok2 t h s :
  n ≠ "" -> executablePath A ≠ "" -> id A ≠ "" ->
  totalPlayTime A = Some t -> playHistory A = Some h ->
  forall i,
    i ∈ App.instances (System.world
           (System.save localeCompare now ok2
              (System.session todayKey (id A) d ok1 (System.renaming A n s)))) ->
    id i = id A ->
    name i = n /\ totalPlayTime i = Some t /\ playHistory i = Some h.
Proof.
  intros Hn He Hi Ht Hh i Hin Hid.
  change (System.session todayKey (id A) d ok1 (System.renaming A n s))
    with (System.renaming A n (System.session todayKey (id A) d ok1 s)) in Hin.
  rewrite save_renaming in Hin by done.
  apply elem_of_sort, list_elem_of_fmap in Hin as (j & -> & Hj).
  destruct (String.eqb_spec (id j) (id A)) as [E|E]; [|done].
  unfold System.renamed. simpl. by rewrite Ht, Hh.
Qed.

(** Event first, save second, on an instance that had neither total
    nor history when the form was opened: the form copied nothing, and
    both writes stay. *)
Lemma session_then_save_keeps_both A n d todayKey now ok1 ok2 s :
  A ∈ App.instances (System.world s) ->
  n ≠ "" -> executablePath A ≠ "" -> id A ≠ "" ->
  totalPlayTime A = None -> playHistory A = None ->
  exists i,
    i ∈ App.instances (System.world
           (System.save localeCompare now ok2
              (System.session todayKey (id A) d ok1 (System.renaming A n s)))) /\
    id i = id A /\ name i = n /\
    totalPlayTime i = Some d /\ playHistory i = Some {[ todayKey := d ]}.
Proof.
  intros HA Hn He Hi Ht Hh.
  exists (System.renamed A n (App.applySession todayKey (id A) d A)).
  split.
  - change (System.session todayKey (id A) d ok1 (System.renaming A n s))
      with (System.renaming A n (System.session todayKey (id A) d ok1 s)).
    rewrite save_renaming by done.
    apply elem_of_sort, list_elem_of_fmap.
    exists (App.applySession todayKey (id A) d A). split.
    + destruct (applySession_keys todayKey (id A) d A) as [-> _].
      by rewrite String.eqb_refl.
    + unfold System.session. cbn [System.world]. rewrite gameFinished_instances.
      by apply list_elem_of_fmap_2.
  - rewrite applySession_match. unfold System.renamed, Spec.played_on. simpl.
    rewrite Ht, Hh. simpl. rewrite lookup_empty. simpl.
    rewrite !Z.add_0_l. by rewrite insert_empty.
Qed.
End Race.

(** * Further properties of the application shell *)

(** ** Play-session events commute and add up *)

Lemma applySession_twice k1 k2 d1 d2 inst :
  App.applySession k1 (id inst) d1 (App.applySession k2 (id inst) d2 inst)
  = mkGameInstance (id inst) (name inst) (info inst) (bottleName inst)
      (executablePath inst) (backgroundImage inst) (lastPlayed inst)
      (Some (Spec.seconds (totalPlayTime inst) + d2 + d1))
      (Some (<[k1 := Spec.seconds (<[k2 := Spec.played_on (playHistory inst) k2 + d2]>
                                     (default ∅ (playHistory inst)) !! k1) + d1]>
               (<[k2 := Spec.played_on (playHistory inst) k2 + d2]>
                  (default ∅ (playHistory inst))))).
Proof.
  rewrite (applySession_match k2), (applySession_hit k1 (id inst)) by reflexivity.
  reflexivity.
Qed.

Lemma applySession_comm k1 i1 d1 k2 i2 d2 inst :
  App.applySession k1 i1 d1 (App.applySession k2 i2 d2 inst)
  = App.applySession k2 i2 d2 (App.applySession k1 i1 d1 inst).
Proof.
  destruct (decide (id inst = i1)) as [<-|H1], (decide (id inst = i2)) as [<-|H2].
  - rewrite !applySession_twice. f_equal; [f_equal; lia|]. f_equal.
    destruct (decide (k1 = k2)) as [->|Hk].
    + rewrite !lookup_insert_eq, !insert_insert_eq. simpl. f_equal. lia.
    + rewrite (lookup_insert_ne _ k2 k1), (lookup_insert_ne _ k1 k2) by done.
      unfold Spec.played_on. by rewrite insert_insert_ne.
  - rewrite (applySession_other k2 i2 d2 inst) by done.
    rewrite (applySession_other k2 i2); [done|].
    by destruct (applySession_keys k1 (id inst) d1 inst) as [-> _].
  - rewrite (applySession_other k1 i1 d1 inst) by done.
    rewrite (applySession_other k1 i1); [done|].
    by destruct (applySession_keys k2 (id inst) d2 inst) as [-> _].
  - by rewrite (applySession_other k2 i2 d2 inst), (applySession_other k1 i1 d1 inst),
      (applySession_other k2 i2 d2 inst).
Qed.

Lemma applySession_add k i d1 d2 inst :
  App.applySession k i d1 (App.applySession k i d2 inst)
  = App.applySession k i (d2 + d1) inst.
Proof.
  destruct (decide (id inst = i)) as [<-|Hne].
  - rewrite applySession_twice, applySession_match.
    f_equal; [f_equal; lia|]. f_equal.
    rewrite lookup_insert_eq, insert_insert_eq. simpl. f_equal. lia.
  - by rewrite (applySession_other k i d2 inst), !(applySession_other _ i _ inst).
Qed.

(** X1. The order in which two play-session events are delivered does
    not matter for the catalogue, and two events for the same instance
    on the same day count as one event with the sum of the durations. *)
Theorem sessions_commute_and_add k1 i1 d1 k2 i2 d2 ok1 ok2 ok3 ok4 w :
  App.instances (App.gameFinished k1 i1 d1 ok1 (App.gameFinished k2 i2 d2 ok2 w))
  = App.instances (App.gameFinished k2 i2 d2 ok3 (App.gameFinished k1 i1 d1 ok4 w)) /\
  App.instances (App.gameFinished k1 i1 d1 ok1 (App.gameFinished k1 i1 d2 ok2 w))
  = App.instances (App.gameFinished k1 i1 (d2 + d1) ok3 w).
Proof.
  rewrite !gameFinished_instances, <- !list_fmap_compose. split.
  - apply list_fmap_ext. intros _ inst _. apply applySession_comm.
  - apply list_fmap_ext. intros _ inst _. apply applySession_add.
Qed.

(** ** The catalogue stays ordered, so re-sorting it changes nothing *)

Section OrderedStates.
Variable localeCompare : string -> string -> Z.
Variable config : App.Config.
Hypothesis collation : Spec.consistent_collation localeCompare.

Lemma sortInstances_fixed l :
  StronglySorted (Spec.precedes localeCompare) l ->
  App.sortInstances localeCompare l = l.
Proof.
  intros Hs. apply sort_sorted_id.
  apply StronglySorted_Sorted in Hs.
  induction Hs as [|x l' _ IH Hhd]; constructor; [exact IH|].
  destruct Hhd; constructor. unfold JS.before.
  by apply compareInstances_precedes.
Qed.

Lemma produced_ordered w :
  Store.produced localeCompare config w ->
  StronglySorted (Spec.precedes localeCompare) (App.instances w).
Proof.
  intros [d Hrtc]. revert w Hrtc.
  apply (rtc_ind_r (fun w => StronglySorted _ (App.instances w))); [constructor|].
  intros y z _ Hstep Hy. eapply step_ordered; eauto.
Qed.

Lemma applySession_ordered todayKey i d l :
  StronglySorted (Spec.precedes localeCompare) l ->
  StronglySorted (Spec.precedes localeCompare) (App.applySession todayKey i d <$> l).
Proof.
  intros Hl. eapply StronglySorted_fmap; [|exact Hl].
  intros x y. unfold Spec.precedes, Spec.played_at.
  destruct (applySession_keys todayKey i d x) as [-> ->].
  by destruct (applySession_keys todayKey i d y) as [-> ->].
Qed.

Lemma load_synced isManual w :
  StronglySorted (Spec.precedes localeCompare) (App.instances w) ->
  App.disk w = Some (Persist.stringify (App.instances w)) ->
  exists w', App.loadInstancesData localeCompare isManual w = Some w' /\
             App.instances w' = App.instances w /\ App.disk w' = App.disk w.
Proof.
  intros Hs Hd. unfold App.loadInstancesData. simpl. rewrite Hd.
  unfold Persist.stringify. rewrite catalogue_roundtrip. simpl.
  eexists. split; [reflexivity|]. simpl. split; [|done].
  by apply sortInstances_fixed.
Qed.

(** X2. After a play session or a successful launch has been written
    to disk, a refresh reads back exactly the catalogue that is on
    screen: same instances in the same order, disk untouched. *)
Theorem refresh_after_write_is_noop w :
  Store.produced localeCompare config w ->
  (forall todayKey instance_id d isManual,
     let w1 := App.gameFinished todayKey instance_id d true w in
     exists w2, App.loadInstancesData localeCompare isManual w1 = Some w2 /\
                App.instances w2 = App.instances w1 /\ App.disk w2 = App.disk w1) /\
  (forall seen instance pid now isManual,
     let w1 := App.handleLaunch localeCompare config seen instance (Some pid) now true w in
     exists w2, App.loadInstancesData localeCompare isManual w1 = Some w2 /\
                App.instances w2 = App.instances w1 /\ App.disk w2 = App.disk w1).
Proof.
  intros Hw. split.
  - intros todayKey i d isManual w1. apply load_synced; [|reflexivity].
    subst w1. rewrite gameFinished_instances.
    by apply applySession_ordered, produced_ordered.
  - intros seen inst pid now isManual w1. apply load_synced; [|reflexivity].
    subst w1. unfold App.handleLaunch. rewrite handleUpdateInstances_instances.
    by apply sortInstances_StronglySorted.
Qed.
End OrderedStates.

Lemma refresh_after_write_is_noop_witness :
  (forall todayKey instance_id d isManual,
     let w1 := App.gameFinished todayKey instance_id d true Examples.after_session in
     exists w2, App.loadInstancesData CodeUnit.localeCompare isManual w1 = Some w2 /\
                App.instances w2 = App.instances w1 /\ App.disk w2 = App.disk w1) /\
  (forall seen instance pid now isManual,
     let w1 := App.handleLaunch CodeUnit.localeCompare Examples.config seen instance
                 (Some pid) now true Examples.after_session in
     exists w2, App.loadInstancesData CodeUnit.localeCompare isManual w1 = Some w2 /\
                App.instances w2 = App.instances w1 /\ App.disk w2 = App.disk w1).
Proof.
  apply (refresh_after_write_is_noop CodeUnit.localeCompare Examples.config
           codeunit_consistent).
  exists None.
  eapply rtc_l; [apply (Store.step_replace _ _ true [Examples.A; Examples.B])|].
  eapply rtc_l; [apply (Store.step_session _ _ "2024-01-02" "1700000000000" 50 true)|].
  apply rtc_refl.
Defined.


(** ** Delete, edit and creation through the instance editor *)

Section SystemOrdered.
Variable localeCompare : string -> string -> Z.
Variable config : App.Config.
Hypothesis collation : Spec.consistent_collation localeCompare.

Local Abbreviation sorted_catalogue w :=
  (StronglySorted (Spec.precedes localeCompare) (App.instances w)).

Lemma replaceAll_ordered saveOk calls w :
  sorted_catalogue w ->
  sorted_catalogue (System.replaceAll localeCompare saveOk calls w).
Proof.
  unfold System.replaceAll. revert w.
  induction calls as [|l calls IH]; intros w Hw; simpl; [exact Hw|].
  apply IH. rewrite handleUpdateInstances_instances.
  by apply sortInstances_StronglySorted.
Qed.

Lemma system_step_ordered s s' :
  System.step localeCompare config s s' ->
  sorted_catalogue (System.world s) -> sorted_catalogue (System.world s').
Proof.
  destruct 1 as [s|s inst Hin|s k v|s now saveOk|s target saveOk Hin
                 |s todayKey iid d saveOk|s inst Hin
                 |s before seen inst after response now saveOk Hl
                 |s randomUUID b saveOk];
    intros Hw; simpl; try exact Hw; try by apply replaceAll_ordered.
  - rewrite handleUpdateInstances_instances. by apply sortInstances_StronglySorted.
  - by apply applySession_ordered.
  - unfold App.handleLaunch. destruct response; simpl; [|exact Hw].
    rewrite handleUpdateInstances_instances. by apply sortInstances_StronglySorted.
Qed.

Lemma reachable_ordered d s :
  System.reachable localeCompare config d s -> sorted_catalogue (System.world s).
Proof.
  revert s. apply (rtc_ind_r (fun s => sorted_catalogue (System.world s))).
  - constructor.
  - intros y z _ Hstep Hy. eapply system_step_ordered; eauto.
Qed.

Lemma StronglySorted_filter {A} (R : A -> A -> Prop) (P : A -> Prop)
    `{forall x, Decision (P x)} l :
  StronglySorted R l -> StronglySorted R (filter P l).
Proof.
  induction 1 as [|x l Hl IH Hx]; [constructor|].
  rewrite filter_cons. destruct (decide (P x)); [|exact IH].
  constructor; [exact IH|].
  rewrite Forall_forall in *. intros y Hy.
  apply list_elem_of_filter in Hy as [_ Hy]. by apply Hx.
Qed.

(** X4. Deleting an instance from a catalogue the system has reached
    removes every entry with that id and nothing else: the entries that
    stay keep their order, and when the save succeeds that same list is
    what is on disk. *)
Theorem delete_removes_exactly_target d s target saveOk :
  System.reachable localeCompare config d s ->
  App.instances (System.world (System.delete localeCompare target saveOk s))
  = filter (fun i => id i ≠ id target) (App.instances (System.world s)) /\
  (saveOk = true ->
   App.disk (System.world (System.delete localeCompare target saveOk s))
   = Some (Persist.stringify
             (filter (fun i => id i ≠ id target) (App.instances (System.world s))))).
Proof.
  intros Hr. apply reachable_ordered in Hr.
  assert (Hfix : App.sortInstances localeCompare
                   (filter (fun i => id i ≠ id target) (App.instances (System.world s)))
                 = filter (fun i => id i ≠ id target) (App.instances (System.world s))).
  { by apply sortInstances_fixed, StronglySorted_filter. }
  split.
  - simpl. rewrite handleUpdateInstances_instances. exact Hfix.
  - intros ->. simpl. by rewrite Hfix.
Qed.
End SystemOrdered.

Lemma delete_removes_exactly_target_witness :
  App.instances (System.world (System.delete CodeUnit.localeCompare Runs.alpha true
                                             Runs.created))
  = filter (fun i => id i ≠ id Runs.alpha) (App.instances (System.world Runs.created)) /\
  (true = true ->
   App.disk (System.world (System.delete CodeUnit.localeCompare Runs.alpha true
                                         Runs.created))
   = Some (Persist.stringify
             (filter (fun i => id i ≠ id Runs.alpha)
                     (App.instances (System.world Runs.created))))).
Proof.
  apply (delete_removes_exactly_target CodeUnit.localeCompare Examples.config
           codeunit_consistent None).
  unfold System.reachable.
  eapply rtc_l; [apply System.step_startCreate|].
  eapply rtc_l; [apply (System.step_editField _ _ _ InstancesPageV1.K_name "Alpha")|].
  eapply rtc_l; [apply (System.step_editField _ _ _ InstancesPageV1.K_executablePath
                          "C:/alpha/start.exe")|].
  eapply rtc_l; [apply (System.step_save _ _ _ Runs.created_at true)|].
  apply rtc_refl.
Defined.

Lemma typing_snoc edits e st :
  Forms.typing (edits ++ [e]) st
  = InstancesPageV1.editField e.1 e.2 (Forms.typing edits st).
Proof. unfold Forms.typing. by rewrite foldl_app. Qed.

(** What typing keeps of an edit form. *)
Lemma typing_edit_form inst st0 edits :
  let st := Forms.typing edits (InstancesPageV1.handleStartEdit inst st0) in
  InstancesPageV1.isCreating st = false /\
  InstancesPageV1.selectedId st = Some (id inst) /\
  p_id (InstancesPageV1.formData st) = Some (id inst).
Proof.
  induction edits as [|e edits IH] using rev_ind; [done|].
  rewrite typing_snoc. destruct IH as (Hc & Hs & Hi).
  repeat split; simpl; try done. by destruct (e.1).
Qed.

(** X5. Saving an edit form, whatever was typed into it, never changes
    the number of instances or any id, and leaves every instance other
    than the edited one as it is; the edited one stays selected. *)
Theorem edit_save_keeps_ids inst st0 edits instances now :
  let st := Forms.typing edits (InstancesPageV1.handleStartEdit inst st0) in
  let o := InstancesPageV1.handleSave instances now st in
  Forall (fun l => Forall2 (fun i i' => id i' = id i /\ (id i ≠ id inst -> i' = i))
                           instances l)
         (InstancesPageV1.calls o) /\
  (length (InstancesPageV1.calls o) <= 1)%nat /\
  InstancesPageV1.selectedId (InstancesPageV1.page o) = Some (id inst).
Proof.
  intros st o. destruct (typing_edit_form inst st0 edits) as (Hc & Hs & Hi).
  fold st in Hc, Hs, Hi. subst o. unfold InstancesPageV1.handleSave.
  destruct (_ || _); [by repeat split; simpl; [constructor|lia|]|].
  rewrite Hc, Hs. simpl.
  destruct (negb (String.eqb (id inst) "")); simpl;
    (split; [|split; [lia|exact Hs]]); (constructor; [|constructor]).
  - apply Forall2_fmap_r, Forall2_same_length_lookup_2; [done|].
    intros k i i' Hi1 Hi2. simplify_eq. unfold compose.
    destruct (String.eqb_spec (id i) (id inst)) as [E|E]; [|done].
    split; [|done]. unfold overlay. simpl. by rewrite Hi.
  - apply Forall2_same_length_lookup_2; [done|].
    intros k i i' Hi1 Hi2. by simplify_eq.
Qed.

(** What typing keeps of a creation form. *)
Lemma typing_create_form st0 edits :
  let st := Forms.typing edits (InstancesPageV1.handleStartCreate st0) in
  InstancesPageV1.isCreating st = true /\
  is_Some (p_name (InstancesPageV1.formData st)) /\
  is_Some (p_executablePath (InstancesPageV1.formData st)).
Proof.
  induction edits as [|e edits IH] using rev_ind; [by repeat split; eexists|].
  rewrite typing_snoc. destruct IH as (Hc & Hn & He).
  repeat split; simpl; try done; by destruct (e.1).
Qed.

(** X6. Saving a creation form is refused exactly when the name or the
    path is empty; otherwise it appends one instance to the catalogue
    it was given, with the typed name and path, an id made of the
    current time, a note and a bottle that are never empty, no
    background image whatever was typed for it, and zeroed play
    statistics. *)
Theorem create_save_appends_one st0 edits instances now :
  let st := Forms.typing edits (InstancesPageV1.handleStartCreate st0) in
  let fd := InstancesPageV1.formData st in
  let o := InstancesPageV1.handleSave instances now st in
  (InstancesPageV1.calls o = [] /\
   InstancesPageV1.toasts o = [App.error] /\
   InstancesPageV1.page o = st /\
   (p_name fd = Some "" \/ p_executablePath fd = Some "")) \/
  (exists new,
     InstancesPageV1.calls o = [instances ++ [new]] /\
     InstancesPageV1.toasts o = [App.success] /\
     InstancesPageV1.isCreating (InstancesPageV1.page o) = false /\
     InstancesPageV1.selectedId (InstancesPageV1.page o) = Some (id new) /\
     id new = pretty now /\
     p_name fd = Some (name new) /\ name new ≠ "" /\
     p_executablePath fd = Some (executablePath new) /\ executablePath new ≠ "" /\
     info new ≠ "" /\ bottleName new ≠ "" /\
     backgroundImage new = None /\
     lastPlayed new = Some 0 /\ totalPlayTime new = Some 0 /\
     playHistory new = Some ∅).
Proof.
  intros st fd o. destruct (typing_create_form st0 edits) as (Hc & [n Hn] & [e He]).
  fold st in Hc, Hn, He. fold fd in Hn, He.
  subst o. unfold InstancesPageV1.handleSave. fold fd. rewrite Hn, He, Hc. simpl.
  destruct (String.eqb_spec n "") as [->|Hne]; simpl; [left; by auto|].
  destruct (String.eqb_spec e "") as [->|Hee]; simpl; [left; by auto|].
  right. eexists. split; [reflexivity|]. simpl.
  repeat split; try done.
  - unfold JS.or_string, JS.or_else, JS.truthy.
    destruct (p_info fd) as [v|]; [|done].
    by destruct (String.eqb_spec v "").
  - unfold JS.or_string, JS.or_else, JS.truthy.
    destruct (p_bottleName fd) as [v|]; [|done].
    by destruct (String.eqb_spec v "").
Qed.

(** ** The launched game comes first *)

Lemma with_lastPlayed_id now i : id (App.with_lastPlayed now i) = id i.
Proof. reflexivity. Qed.

(** X7. When a launch succeeds at a time later than every timestamp of
    the catalogue it saw, and the launched instance is in that
    catalogue, the new catalogue starts with the launched instance,
    stamped with that time: it is what the shell hands to the layout. *)
Theorem launched_comes_first localeCompare config seen instance pid now saveOk w :
  Spec.consistent_collation localeCompare ->
  (exists i, i ∈ seen /\ id i = id instance) ->
  (forall i, i ∈ seen -> Spec.played_at i < now) ->
  exists i, i ∈ seen /\ id i = id instance /\
    AppView.currentDisplayInstance
      (App.handleLaunch localeCompare config seen instance (Some pid) now saveOk w)
    = Some (App.with_lastPlayed now i).
Proof.
  intros Hcoll (i0 & Hi0 & Hid0) Hlate.
  unfold AppView.currentDisplayInstance, App.handleLaunch.
  rewrite handleUpdateInstances_instances.
  set (stamp := fun i => if String.eqb (id i) (id instance)
                         then App.with_lastPlayed now i else i).
  set (l := App.sortInstances localeCompare (JS.sort App.compareLastPlayed (stamp <$> seen))).
  assert (Hmem : forall x, x ∈ l <-> exists i, i ∈ seen /\ x = stamp i).
  { intros x. unfold l, App.sortInstances. rewrite !elem_of_sort, list_elem_of_fmap.
    split; intros (i & H1 & H2); exists i; by split. }
  assert (Hs : StronglySorted (Spec.precedes localeCompare) l)
    by (by apply sortInstances_StronglySorted).
  assert (Hz : App.with_lastPlayed now i0 ∈ l).
  { apply Hmem. exists i0. split; [done|]. unfold stamp.
    by rewrite Hid0, String.eqb_refl. }
  destruct l as [|x rest]; [by apply elem_of_nil in Hz|]. simpl.
  assert (Hx : x ∈ x :: rest) by left.
  apply Hmem in Hx as (i & Hi & ->). unfold stamp.
  destruct (String.eqb_spec (id i) (id instance)) as [E|E]; [by exists i|].
  exfalso. unfold stamp in Hs, Hz.
  destruct (String.eqb_spec (id i) (id instance)) as [|_]; [done|].
  apply elem_of_cons in Hz as [Hz|Hz].
  - apply (f_equal id) in Hz. simpl in Hz. congruence.
  - apply StronglySorted_inv in Hs as [_ Hall].
    rewrite Forall_forall in Hall. specialize (Hall _ Hz).
    specialize (Hlate i Hi).
    unfold Spec.precedes, Spec.played_at in *. simpl in Hall. lia.
Qed.

Lemma launched_comes_first_witness :
  exists i, i ∈ [Examples.B; Examples.A] /\ id i = id Examples.A /\
    AppView.currentDisplayInstance
      (App.handleLaunch CodeUnit.localeCompare Examples.config [Examples.B; Examples.A]
         Examples.A (Some 4242) 1800000000000 true Examples.start)
    = Some (App.with_lastPlayed 1800000000000 i).
Proof.
  apply (launched_comes_first CodeUnit.localeCompare Examples.config
           [Examples.B; Examples.A] Examples.A 4242 1800000000000 true Examples.start
           codeunit_consistent).
  - exists Examples.A. split; [right; left|reflexivity].
  - intros i Hi. apply elem_of_cons in Hi as [->|Hi]; [vm_compute; reflexivity|].
    apply elem_of_cons in Hi as [->|Hi]; [vm_compute; reflexivity|].
    by apply elem_of_nil in Hi.
Defined.

(** ** The launch panel *)

Lemma pretty_Z_0 : pretty 0 = "0".
Proof. reflexivity. Qed.

(** X8. For a duration that is not negative the panel prints the whole
    hours and the whole minutes left after them, always fewer than 60,
    drops the seconds, and leaves the hours out below one hour. *)
Theorem formatTime_hours_minutes h m r :
  0 <= h -> 0 <= m < 60 -> 0 <= r < 60 ->
  LaunchControl.formatTime (3600 * h + 60 * m + r)
  = if h =? 0 then pretty m +:+ "分钟"
    else pretty h +:+ "小时" +:+ pretty m +:+ "分".
Proof.
  intros Hh Hm Hr. unfold LaunchControl.formatTime.
  destruct (Z.eqb_spec (3600 * h + 60 * m + r) 0) as [E|E].
  - assert (h = 0) as -> by lia. assert (m = 0) as -> by lia.
    by rewrite pretty_Z_0.
  - assert (Hq : (3600 * h + 60 * m + r) / 3600 = h).
    { symmetry. apply (Z.div_unique _ _ _ (60 * m + r)); lia. }
    assert (Hrem : Z.rem (3600 * h + 60 * m + r) 3600 = 60 * m + r).
    { rewrite Z.rem_mod_nonneg by lia.
      symmetry. apply (Z.mod_unique _ _ h); lia. }
    assert (Hmin : (60 * m + r) / 60 = m).
    { symmetry. apply (Z.div_unique _ _ _ r); lia. }
    rewrite Hq, Hrem, Hmin.
    destruct (Z.eqb_spec h 0) as [->|Hne]; [reflexivity|].
    by rewrite (proj2 (Z.ltb_lt 0 h)) by lia.
Qed.

Lemma formatTime_hours_minutes_witness :
  LaunchControl.formatTime (3600 * 1 + 60 * 2 + 5)
  = if 1 =? 0 then pretty 2 +:+ "分钟"
    else pretty 1 +:+ "小时" +:+ pretty 2 +:+ "分".
Proof. apply (formatTime_hours_minutes 1 2 5); lia. Defined.

Lemma find_is_selected_fmap (f : GameInstance -> GameInstance) sel l :
  (forall i, id (f i) = id i) ->
  List.find (LaunchControl.is_selected sel) (f <$> l)
  = f <$> List.find (LaunchControl.is_selected sel) l.
Proof.
  intros Hf. induction l as [|x l IH]; [done|].
  rewrite fmap_cons. simpl.
  replace (LaunchControl.is_selected sel (f x)) with (LaunchControl.is_selected sel x)
    by (unfold LaunchControl.is_selected; by rewrite Hf).
  by destruct (LaunchControl.is_selected sel x).
Qed.

Lemma currentInstance_fmap (f : GameInstance -> GameInstance) sel l :
  (forall i, id (f i) = id i) ->
  LaunchControl.currentInstance (f <$> l) sel
  = f <$> LaunchControl.currentInstance l sel.
Proof.
  intros Hf. unfold LaunchControl.currentInstance.
  rewrite find_is_selected_fmap by done.
  destruct (List.find _ l); [done|]. by destruct l.
Qed.

(** X9. A finished play session does not change which instance the
    panel shows, and the time it prints for a day grows by the length
    of the session when the instance shown is the one played and the
    day is the day of the session, and stays as it is otherwise. *)
Theorem panel_after_session todayKey instance_id d saveOk w selectedId :
  LaunchControl.currentInstance
    (App.instances (App.gameFinished todayKey instance_id d saveOk w)) selectedId
  = App.applySession todayKey instance_id d
      <$> LaunchControl.currentInstance (App.instances w) selectedId /\
  (forall inst day,
     LaunchControl.getDailyTime day
       (Some (App.applySession todayKey instance_id d inst))
     = LaunchControl.getDailyTime day (Some inst)
       + (if bool_decide (id inst = instance_id /\ day = todayKey) then d else 0)).
Proof.
  split.
  - rewrite gameFinished_instances. apply currentInstance_fmap.
    intros i. by destruct (applySession_keys todayKey instance_id d i).
  - intros inst day. destruct (decide (id inst = instance_id)) as [<-|Hne].
    + rewrite applySession_match. unfold LaunchControl.getDailyTime. simpl.
      rewrite !or_zero_seconds. unfold Spec.played_on.
      destruct (decide (day = todayKey)) as [->|Hd].
      * rewrite lookup_insert_eq, bool_decide_eq_true_2 by done. simpl.
        destruct (playHistory inst); simpl; rewrite ?or_zero_seconds; [done|].
        by rewrite lookup_empty.
      * rewrite lookup_insert_ne by done.
        rewrite bool_decide_eq_false_2 by (by intros [_ ?]).
        destruct (playHistory inst); simpl; rewrite ?or_zero_seconds; [lia|].
        by rewrite lookup_empty.
    + rewrite applySession_other by done.
      rewrite bool_decide_eq_false_2 by (by intros [? _]). lia.
Qed.

Lemma find_is_selected_unique sel l i :
  NoDup (id <$> l) -> i ∈ l -> sel = Some (id i) ->
  List.find (LaunchControl.is_selected sel) l = Some i.
Proof.
  intros Hnd Hi ->. induction l as [|x l IH]; [by apply elem_of_nil in Hi|].
  rewrite fmap_cons in Hnd. apply NoDup_cons in Hnd as [Hx Hnd]. simpl.
  destruct (String.eqb_spec (id x) (id i)) as [E|E].
  - apply elem_of_cons in Hi as [->|Hi]; [done|].
    exfalso. apply Hx. rewrite E. apply list_elem_of_fmap. by exists i.
  - apply elem_of_cons in Hi as [->|Hi]; [done|]. by apply IH.
Qed.

Lemma find_is_selected_Some sel l c :
  List.find (LaunchControl.is_selected sel) l = Some c -> c ∈ l /\ sel = Some (id c).
Proof.
  intros H. apply find_some in H as [Hin Hsel]. split; [by apply list_elem_of_In|].
  unfold LaunchControl.is_selected in Hsel. destruct sel as [s|]; [|done].
  by apply String.eqb_eq in Hsel as ->.
Qed.

Lemma find_is_selected_None sel l i :
  List.find (LaunchControl.is_selected sel) l = None -> i ∈ l -> sel ≠ Some (id i).
Proof.
  intros H Hi ->. apply list_elem_of_In in Hi.
  pose proof (find_none _ _ H _ Hi) as Hn. simpl in Hn.
  by rewrite String.eqb_refl in Hn.
Qed.

(** X10. The panel shows nothing only for an empty catalogue; what it
    shows is an instance of the catalogue, the selected one if the
    selection is there and the first one otherwise; when ids are
    unique a reordering of the catalogue, as a launch or a refresh
    makes, does not change what a selection that is there shows; and
    with the selection it mounts with, on this catalogue or on an
    empty one, it shows the first instance. *)
Theorem current_instance_selection l selectedId :
  (LaunchControl.currentInstance l selectedId = None <-> l = []) /\
  (forall c, LaunchControl.currentInstance l selectedId = Some c ->
     c ∈ l /\
     ((exists i, i ∈ l /\ selectedId = Some (id i)) -> selectedId = Some (id c)) /\
     ((forall i, i ∈ l -> selectedId ≠ Some (id i)) -> head l = Some c)) /\
  (forall l' i, NoDup (id <$> l) -> l' ≡ₚ l -> i ∈ l -> selectedId = Some (id i) ->
     LaunchControl.currentInstance l' selectedId = Some i) /\
  LaunchControl.currentInstance l (LaunchControl.initialSelectedId l) = head l /\
  LaunchControl.currentInstance l (LaunchControl.initialSelectedId []) = head l.
Proof.
  unfold LaunchControl.currentInstance. split; [|split; [|split; [|split]]].
  - destruct (List.find _ l) as [c|] eqn:Hf.
    + apply find_is_selected_Some in Hf as [Hin _].
      split; [done|]. intros ->. by apply elem_of_nil in Hin.
    + by destruct l.
  - intros c Hc. destruct (List.find _ l) as [c'|] eqn:Hf.
    + simplify_eq. apply find_is_selected_Some in Hf as [Hin Hsel].
      split; [done|]. split; [done|]. intros Hno. by destruct (Hno c Hin).
    + split; [by apply head_Some_elem_of|].
      split; [|done]. intros (i & Hi & Hsel).
      by destruct (find_is_selected_None _ _ i Hf Hi).
  - intros l' i Hnd Hp Hi Hsel.
    rewrite (find_is_selected_unique selectedId l' i); [done| | |done].
    + by rewrite Hp.
    + by rewrite Hp.
  - destruct l as [|x l]; [done|]. simpl. by rewrite String.eqb_refl.
  - assert (Hnone : List.find (LaunchControl.is_selected
                                   (LaunchControl.initialSelectedId [])) l = None)
      by (by induction l).
    by rewrite Hnone.
Qed.

(** ** Notifications *)

Lemma filter_without_other i j l :
  i ≠ j ->
  filter (fun t => ToastProvider.id t = i) (ToastProvider.without j l)
  = filter (fun t => ToastProvider.id t = i) l.
Proof.
  intros Hne. unfold ToastProvider.without.
  induction l as [|t l IH]; [done|].
  rewrite !filter_cons. destruct (decide (ToastProvider.id t ≠ j)) as [Hj|Hj].
  - rewrite filter_cons. by rewrite IH.
  - rewrite IH. apply dec_stable in Hj.
    rewrite decide_False; [done|]. congruence.
Qed.

Lemma filter_without_same i l :
  filter (fun t => ToastProvider.id t = i) (ToastProvider.without i l) = [].
Proof.
  unfold ToastProvider.without. induction l as [|t l IH]; [done|].
  rewrite filter_cons. destruct (decide (ToastProvider.id t ≠ i)) as [Hj|Hj]; [|done].
  rewrite filter_cons, decide_False by done. exact IH.
Qed.

Lemma length_filter_without i j l :
  (length (filter (fun t => ToastProvider.id t = i) (ToastProvider.without j l))
   <= length (filter (fun t => ToastProvider.id t = i) l))%nat.
Proof.
  destruct (decide (i = j)) as [->|Hne].
  - rewrite filter_without_same. simpl. lia.
  - by rewrite filter_without_other.
Qed.

Lemma filter_delete_other {A} (P : A -> Prop) `{forall x, Decision (P x)}
    (k : nat) (l : list A) (x : A) :
  l !! k = Some x -> ¬ P x -> filter P (delete k l) = filter P l.
Proof.
  intros Hk Hx. rewrite <- (take_drop_middle l k x Hk) at 2.
  rewrite delete_take_drop, !filter_app, filter_cons, decide_False by done.
  reflexivity.
Qed.

Lemma handle_toast_counts st e i :
  (ToastProvider.shown i st <= ToastProvider.pending i st)%nat ->
  (ToastProvider.shown i (ToastProvider.handle st e)
   <= ToastProvider.pending i (ToastProvider.handle st e))%nat.
Proof.
  unfold ToastProvider.shown, ToastProvider.pending. intros Hst.
  destruct e as [now message type|j|k]; simpl.
  - rewrite !filter_app, !length_app, !filter_cons, !filter_nil. simpl.
    destruct (decide (pretty now = i)); simpl; lia.
  - etrans; [apply length_filter_without|exact Hst].
  - unfold ToastProvider.fire.
    destruct (ToastProvider.timers st !! k) as [[due j]|] eqn:Hk; [|exact Hst].
    simpl. destruct (decide (i = j)) as [->|Hne].
    + rewrite filter_without_same. simpl. lia.
    + rewrite filter_without_other by done.
      rewrite (filter_delete_other _ k _ (due, j)); [exact Hst|done|].
      simpl. congruence.
Qed.

Lemma toast_run_snoc events e st :
  ToastProvider.run (events ++ [e]) st
  = ToastProvider.handle (ToastProvider.run events st) e.
Proof. unfold ToastProvider.run. by rewrite foldl_app. Qed.

(** X11. Whatever is shown, closed by hand or timed out, in any order:
    for every id there are never more toasts on screen than timers
    pending for that id.  So every toast on screen has a timer that
    will remove it, and once no timer is pending the screen is
    clear. *)
Theorem toast_has_timer events :
  let st := ToastProvider.run events ToastProvider.initial in
  (forall i, (ToastProvider.shown i st <= ToastProvider.pending i st)%nat) /\
  (forall t, t ∈ ToastProvider.toasts st ->
     exists due, (due, ToastProvider.id t) ∈ ToastProvider.timers st) /\
  (ToastProvider.timers st = [] -> ToastProvider.toasts st = []).
Proof.
  intros st.
  assert (Hcount : forall i, (ToastProvider.shown i st <= ToastProvider.pending i st)%nat).
  { subst st. induction events as [|e events IH] using rev_ind; [done|].
    intros i. rewrite toast_run_snoc. apply handle_toast_counts, IH. }
  assert (Htimer : forall t, t ∈ ToastProvider.toasts st ->
            exists due, (due, ToastProvider.id t) ∈ ToastProvider.timers st).
  { intros t Ht. specialize (Hcount (ToastProvider.id t)).
    unfold ToastProvider.shown, ToastProvider.pending in Hcount.
    destruct (filter (fun x => x.2 = ToastProvider.id t) (ToastProvider.timers st))
      as [|[due j] rest] eqn:Hf.
    - assert (Hin : t ∈ filter (fun x => ToastProvider.id x = ToastProvider.id t)
                               (ToastProvider.toasts st))
        by (by apply list_elem_of_filter).
      destruct (filter _ (ToastProvider.toasts st)); [by apply elem_of_nil in Hin|].
      simpl in Hcount. lia.
    - assert (Hin : (due, j) ∈ filter (fun x => x.2 = ToastProvider.id t)
                                      (ToastProvider.timers st))
        by (rewrite Hf; left).
      apply list_elem_of_filter in Hin as [Hj Hin]. simpl in Hj. subst j.
      by exists due. }
  split; [exact Hcount|]. split; [exact Htimer|].
  intros Hnil. destruct (ToastProvider.toasts st) as [|t l] eqn:Ht; [done|].
  destruct (Htimer t) as [due Hdue]; [left|].
  rewrite Hnil in Hdue. by apply elem_of_nil in Hdue.
Qed.

(** ** The news feed *)

Lemma feed_run_snoc events e st :
  DiscoveryPage.run (events ++ [e]) st
  = DiscoveryPage.handle (DiscoveryPage.run events st) e.
Proof. unfold DiscoveryPage.run. by rewrite foldl_app. Qed.

Lemma fetchArticles_single_flight p st :
  1 <= p <= DiscoveryPage.pageRef st + 1 ->
  DiscoveryPage.single_flight st ->
  DiscoveryPage.single_flight (DiscoveryPage.fetchArticles p st).
Proof.
  intros Hp Hst. unfold DiscoveryPage.fetchArticles.
  destruct (DiscoveryPage.loadingRef st) eqn:Hl; [exact Hst|].
  destruct Hst as (Hs & Ht & Hf & Hpage).
  repeat split; simpl; try done.
  intros _. exists p. by rewrite Hf.
Qed.

Lemma handle_single_flight st e :
  DiscoveryPage.single_flight st ->
  DiscoveryPage.single_flight (DiscoveryPage.handle st e).
Proof.
  intros Hst. pose proof Hst as (Hs & Ht & Hf & Hpage).
  destruct e as [|b| | |answer]; simpl.
  - destruct (_ && _); [|exact Hst]. apply fetchArticles_single_flight; [lia|exact Hst].
  - destruct (_ && _); [|exact Hst]. apply fetchArticles_single_flight; [lia|exact Hst].
  - by repeat split.
  - destruct (DiscoveryPage.error st); [|exact Hst].
    apply fetchArticles_single_flight; [lia|exact Hst].
  - destruct (DiscoveryPage.inflight st) as [|p rest] eqn:Hin; [exact Hst|].
    destruct (DiscoveryPage.loadingRef st) eqn:Hl;
      [|specialize (Hf eq_refl); congruence].
    destruct Ht as (q & Hq & Hrange & _); [done|]. simplify_eq.
    unfold DiscoveryPage.settle.
    destruct answer as [err|r]; simpl; [by repeat split|].
    destruct (DiscoveryPage.data r) as [page|]; [|by repeat split].
    destruct (_ && _); simpl; repeat split; try done; simpl; lia.
Qed.

(** X12. However the mount effect, the observer, the retry button and
    the answers of the back end interleave, at most one request of the
    feed is awaited at a time; it asks for a page between 1 and the one
    after the page shown, the loading flag shown is the flag the guard
    reads, no error is displayed while it is awaited, and the page
    counter never goes below 1. *)
Theorem feed_single_flight events :
  DiscoveryPage.single_flight (DiscoveryPage.run events DiscoveryPage.initial).
Proof.
  induction events as [|e events IH] using rev_ind.
  - by repeat split.
  - rewrite feed_run_snoc. by apply handle_single_flight.
Qed.

Lemma NoDup_fmap_filter {A B} (f : A -> B) (P : A -> Prop) `{forall x, Decision (P x)}
    (l : list A) :
  NoDup (f <$> l) -> NoDup (f <$> filter P l).
Proof.
  induction l as [|x l IH]; [done|].
  rewrite fmap_cons, filter_cons. intros [Hx Hl]%NoDup_cons.
  destruct (decide (P x)); [|by apply IH].
  rewrite fmap_cons. apply NoDup_cons. split; [|by apply IH].
  rewrite list_elem_of_fmap. intros (y & Hy & Hin).
  apply list_elem_of_filter in Hin as [_ Hin].
  apply Hx, list_elem_of_fmap. by exists y.
Qed.

Lemma mergeArticles_NoDup p page prev :
  NoDup (DiscoveryPage.topicId <$> page) -> NoDup (DiscoveryPage.topicId <$> prev) ->
  NoDup (DiscoveryPage.topicId <$> DiscoveryPage.mergeArticles p page prev).
Proof.
  intros Hpage Hprev. unfold DiscoveryPage.mergeArticles.
  destruct (p =? 1); [exact Hpage|].
  rewrite fmap_app. apply NoDup_app. split; [exact Hprev|].
  split; [|by apply NoDup_fmap_filter].
  intros x Hx. rewrite list_elem_of_fmap. intros (a & -> & Ha).
  by apply list_elem_of_filter in Ha as [Ha _].
Qed.

Lemma handle_articles_NoDup st e :
  NoDup (DiscoveryPage.topicId <$> DiscoveryPage.page_of e) ->
  NoDup (DiscoveryPage.topicId <$> DiscoveryPage.articles st) ->
  NoDup (DiscoveryPage.topicId <$> DiscoveryPage.articles (DiscoveryPage.handle st e)).
Proof.
  intros He Hst. destruct e as [|b| | |answer]; simpl.
  - destruct (_ && _); [|exact Hst].
    unfold DiscoveryPage.fetchArticles. by destruct (DiscoveryPage.loadingRef st).
  - destruct (_ && _); [|exact Hst].
    unfold DiscoveryPage.fetchArticles. by destruct (DiscoveryPage.loadingRef st).
  - exact Hst.
  - destruct (DiscoveryPage.error st); [|exact Hst].
    unfold DiscoveryPage.fetchArticles. by destruct (DiscoveryPage.loadingRef st).
  - destruct (DiscoveryPage.inflight st) as [|p rest]; [exact Hst|].
    unfold DiscoveryPage.settle. destruct answer as [err|r]; [exact Hst|].
    simpl in He. destruct (DiscoveryPage.data r) as [page|]; [|exact Hst].
    destruct (_ && _); [|exact Hst]. simpl. by apply mergeArticles_NoDup.
Qed.

(** X13. When no answer of the back end repeats a topic within one
    page, the feed never shows a topic twice, however many pages are
    merged and however often a page is fetched again. *)
Theorem feed_never_repeats_a_topic events :
  Forall (fun e => NoDup (DiscoveryPage.topicId <$> DiscoveryPage.page_of e)) events ->
  NoDup (DiscoveryPage.topicId
           <$> DiscoveryPage.articles (DiscoveryPage.run events DiscoveryPage.initial)).
Proof.
  induction events as [|e events IH] using rev_ind; intros Hev.
  - constructor.
  - apply Forall_app in Hev as [Hev He]. apply Forall_cons in He as [He _].
    rewrite feed_run_snoc. apply handle_articles_NoDup; [exact He|by apply IH].
Qed.

Lemma feed_never_repeats_a_topic_witness :
  NoDup (DiscoveryPage.topicId
           <$> DiscoveryPage.articles (DiscoveryPage.run Feeds.events DiscoveryPage.initial)).
Proof.
  apply (feed_never_repeats_a_topic Feeds.events).
  apply (bool_decide_unpack _). vm_compute. reflexivity.
Defined.

Lemma handle_feed_ended st e :
  DiscoveryPage.hasMore st = false ->
  DiscoveryPage.hasMore (DiscoveryPage.handle st e) = false /\
  (DiscoveryPage.observerHasMore st = false ->
   DiscoveryPage.observerHasMore (DiscoveryPage.handle st e) = false).
Proof.
  intros Hst. destruct e as [|b| | |answer]; simpl.
  - destruct (_ && _); [|done].
    unfold DiscoveryPage.fetchArticles. by destruct (DiscoveryPage.loadingRef st).
  - destruct (_ && _); [|done].
    unfold DiscoveryPage.fetchArticles. by destruct (DiscoveryPage.loadingRef st).
  - done.
  - destruct (DiscoveryPage.error st); [|done].
    unfold DiscoveryPage.fetchArticles. by destruct (DiscoveryPage.loadingRef st).
  - destruct (DiscoveryPage.inflight st) as [|p rest]; [done|].
    unfold DiscoveryPage.settle. destruct answer as [err|r]; [done|].
    destruct (DiscoveryPage.data r) as [page|]; [|done].
    destruct (_ && _); [|done]. simpl. by destruct (_ <? _)%nat.
Qed.

(** X14. Once the feed has reached its end it stays there, whatever
    arrives afterwards; and once the observer has been subscribed again
    with that knowledge, scrolling to the end starts no request. *)
Theorem feed_end_is_final events st :
  DiscoveryPage.hasMore st = false ->
  DiscoveryPage.hasMore (DiscoveryPage.run events st) = false /\
  (DiscoveryPage.observerHasMore st = false ->
   forall b, DiscoveryPage.handle (DiscoveryPage.run events st) (DiscoveryPage.Intersect b)
             = DiscoveryPage.run events st).
Proof.
  intros Hst.
  assert (Hinv : DiscoveryPage.hasMore (DiscoveryPage.run events st) = false /\
                 (DiscoveryPage.observerHasMore st = false ->
                  DiscoveryPage.observerHasMore (DiscoveryPage.run events st) = false)).
  { induction events as [|e events IH] using rev_ind; [done|].
    rewrite feed_run_snoc. destruct IH as [IH1 IH2].
    destruct (handle_feed_ended (DiscoveryPage.run events st) e IH1) as [H1 H2].
    split; [exact H1|]. intros Ho. by apply H2, IH2. }
  destruct Hinv as [H1 H2]. split; [exact H1|].
  intros Ho b. simpl. rewrite (H2 Ho). by rewrite andb_false_r.
Qed.

Lemma feed_end_is_final_witness :
  DiscoveryPage.hasMore
    (DiscoveryPage.run [DiscoveryPage.Intersect true; DiscoveryPage.Resubscribe]
                       Feeds.ended) = false /\
  (DiscoveryPage.observerHasMore Feeds.ended = false ->
   forall b,
     DiscoveryPage.handle
       (DiscoveryPage.run [DiscoveryPage.Intersect true; DiscoveryPage.Resubscribe]
                          Feeds.ended)
       (DiscoveryPage.Intersect b)
     = DiscoveryPage.run [DiscoveryPage.Intersect true; DiscoveryPage.Resubscribe]
                         Feeds.ended).
Proof.
  apply (feed_end_is_final [DiscoveryPage.Intersect true; DiscoveryPage.Resubscribe]
                           Feeds.ended).
  reflexivity.
Defined.

Lemma mergeArticles_covers p page prev a :
  a ∈ page ->
  DiscoveryPage.topicId a
    ∈ DiscoveryPage.topicId <$> DiscoveryPage.mergeArticles p page prev.
Proof.
  intros Ha. unfold DiscoveryPage.mergeArticles.
  destruct (p =? 1); [apply list_elem_of_fmap; by exists a|].
  rewrite fmap_app, elem_of_app.
  destruct (decide (DiscoveryPage.topicId a ∈ DiscoveryPage.topicId <$> prev)) as [Hin|Hout];
    [by left|right].
  apply list_elem_of_fmap. exists a. split; [done|]. by apply list_elem_of_filter.
Qed.

Lemma filter_all_known (ids : list string) (l : list DiscoveryPage.Topic) :
  (forall a, a ∈ l -> DiscoveryPage.topicId a ∈ ids) ->
  filter (fun a => DiscoveryPage.topicId a ∉ ids) l = [].
Proof.
  induction l as [|a l IH]; intros Hl; [done|].
  rewrite filter_cons, decide_False; [apply IH|].
  - intros b Hb. apply Hl. by right.
  - intros Hn. apply Hn, Hl. left.
Qed.

Lemma mergeArticles_idempotent p page prev :
  DiscoveryPage.mergeArticles p page (DiscoveryPage.mergeArticles p page prev)
  = DiscoveryPage.mergeArticles p page prev.
Proof.
  pose proof (fun a => mergeArticles_covers p page prev a) as Hcov.
  unfold DiscoveryPage.mergeArticles in *.
  destruct (p =? 1); [done|].
  rewrite (filter_all_known (DiscoveryPage.topicId <$> prev ++ _) page Hcov).
  by rewrite app_nil_r.
Qed.

(** X15. Merging a page other than the first only appends to the list;
    an answer either leaves the list as it is or every topic it
    carries is in the list afterwards; and the same answer for the same
    page, delivered again, changes nothing more. *)
Theorem feed_merge_laws p answer st :
  (p ≠ 1 ->
   DiscoveryPage.articles st
     `prefix_of` DiscoveryPage.articles (DiscoveryPage.settle p answer st)) /\
  (DiscoveryPage.articles (DiscoveryPage.settle p answer st) = DiscoveryPage.articles st \/
   forall a, a ∈ DiscoveryPage.page_of (DiscoveryPage.Settle answer) ->
     DiscoveryPage.topicId a
       ∈ DiscoveryPage.topicId
           <$> DiscoveryPage.articles (DiscoveryPage.settle p answer st)) /\
  DiscoveryPage.articles
    (DiscoveryPage.settle p answer (DiscoveryPage.settle p answer st))
  = DiscoveryPage.articles (DiscoveryPage.settle p answer st).
Proof.
  unfold DiscoveryPage.settle. destruct answer as [err|r]; simpl.
  { split; [done|]. split; [by left|done]. }
  destruct (DiscoveryPage.data r) as [page|]; simpl.
  2: { split; [done|]. split; [by left|done]. }
  destruct (_ && _); simpl.
  2: { split; [done|]. split; [by left|done]. }
  split; [|split].
  - intros Hp. unfold DiscoveryPage.mergeArticles.
    rewrite (proj2 (Z.eqb_neq p 1)) by done. by eexists.
  - right. intros a Ha. by apply mergeArticles_covers.
  - apply mergeArticles_idempotent.
Qed.

(** ** The search aggregator: nothing invented, nothing lost *)

Lemma length_first_seen {K} `{EqDecision K} (ks : list K) :
  (length (Spec.first_seen ks) <= length ks)%nat.
Proof.
  induction ks as [|k ks IH]; [done|].
  change (Spec.first_seen (k :: ks))
    with (k :: filter (fun k' => k' ≠ k) (Spec.first_seen ks)).
  simpl. pose proof (length_filter (fun k' => k' ≠ k) (Spec.first_seen ks)). lia.
Qed.

Lemma aggregator_entries search_game keywords :
  let merged := concat (InstancesPage.resultsArrays search_game keywords) in
  let out := InstancesPage.fetchGameResults search_game keywords in
  (forall r, r ∈ out -> r ∈ merged) /\
  (forall r, r ∈ merged ->
     exists r', r' ∈ out /\ InstancesPage.dedupKey r' = InstancesPage.dedupKey r).
Proof.
  intros merged out.
  destruct (collect_spec InstancesPage.dedupKey merged) as [Hkeys Hvals].
  rewrite Forall_forall in Hvals.
  assert (Hout : out = (InstancesPage.collect InstancesPage.dedupKey merged).*2)
    by reflexivity.
  assert (Hsound : forall k r,
            (k, r) ∈ InstancesPage.collect InstancesPage.dedupKey merged ->
            r ∈ merged /\ InstancesPage.dedupKey r = k).
  { intros k r Hin. specialize (Hvals _ Hin). simpl in Hvals.
    unfold Spec.last_with in Hvals.
    apply last_Some_elem_of, list_elem_of_filter in Hvals. tauto. }
  split.
  - intros r Hr. rewrite Hout in Hr.
    apply list_elem_of_fmap in Hr as ([k v] & -> & Hin). by apply (Hsound k).
  - intros r Hr.
    assert (Hk : InstancesPage.dedupKey r
                 ∈ (InstancesPage.collect InstancesPage.dedupKey merged).*1).
    { rewrite Hkeys, elem_of_first_seen. by apply list_elem_of_fmap_2. }
    apply list_elem_of_fmap in Hk as ([k v] & Hkv & Hin). simpl in Hkv. subst k.
    exists v. split; [|by apply (Hsound _ _ Hin)].
    rewrite Hout. apply list_elem_of_fmap. by exists (InstancesPage.dedupKey r, v).
Qed.

(** X16. Every result the aggregator returns is a result some provider
    gave; every result a provider gave is represented by a returned
    result with the same key; the answer is never longer than what the
    providers gave together, and it is empty only when they gave
    nothing. *)
Theorem aggregator_sound_and_complete search_game keywords :
  let merged := concat (InstancesPage.resultsArrays search_game keywords) in
  let out := InstancesPage.fetchGameResults search_game keywords in
  (forall r, r ∈ out -> r ∈ merged) /\
  (forall r, r ∈ merged ->
     exists r', r' ∈ out /\ InstancesPage.dedupKey r' = InstancesPage.dedupKey r) /\
  (length out <= length merged)%nat /\
  (out = [] <-> merged = []).
Proof.
  intros merged out.
  destruct (aggregator_entries search_game keywords) as [Hsound Hcomplete].
  fold merged in Hsound, Hcomplete. fold out in Hsound, Hcomplete.
  destruct (collect_spec InstancesPage.dedupKey merged) as [Hkeys _].
  assert (Hout : out = (InstancesPage.collect InstancesPage.dedupKey merged).*2)
    by reflexivity.
  split; [exact Hsound|]. split; [exact Hcomplete|]. split.
  - rewrite Hout, length_fmap,
      <- (length_fmap fst (InstancesPage.collect InstancesPage.dedupKey merged)), Hkeys.
    etrans; [apply length_first_seen|]. by rewrite length_fmap.
  - split.
    + intros Hnil. destruct merged as [|r rest] eqn:Hm; [done|].
      destruct (Hcomplete r) as (r' & Hr' & _); [left|].
      rewrite Hnil in Hr'. by apply elem_of_nil in Hr'.
    + intros Hnil. rewrite Hout, Hnil. reflexivity.
Qed.

(** ** Batch matching settles *)

Section MatchingTwice.
Variable get_directory_keywords : string -> option (list string).
Variable search_game : string -> string -> option (list SearchResult.t).

Local Abbreviation matching l :=
  (InstancesPage.handleStartBatchMatching get_directory_keywords search_game l).
Local Abbreviation verdict_of :=
  (InstancesPage.verdict get_directory_keywords search_game).
Local Abbreviation matched_once :=
  (fun item => if InstancesPage.eligible item
               then BatchItem.merge (BatchItem.with_matching item) (verdict_of item)
               else item).

Lemma run_matching l :
  NoDup (BatchItem.id <$> l) ->
  InstancesPage.run (matching l) l = matched_once <$> l.
Proof.
  intros Hnd. unfold InstancesPage.handleStartBatchMatching, InstancesPage.run. simpl.
  change (foldl (fun s u => u s) ?a ?us) with (InstancesPage.run us a).
  rewrite run_turns. unfold InstancesPage.markMatching.
  rewrite <- list_fmap_compose. apply list_fmap_ext. intros k item Hk. simpl.
  assert (Hin : item ∈ l) by (by eapply list_elem_of_lookup_2).
  rewrite markMatching_spec by done.
  destruct (InstancesPage.eligible item) eqn:Hm.
  - apply turns_own; [by apply NoDup_ids_filter| |done].
    by apply elem_of_itemsToMatch.
  - apply turns_foreign. intros x Hx E.
    apply elem_of_itemsToMatch in Hx as [Hxm Hx].
    rewrite (NoDup_ids_inj l x item) in Hxm by done. congruence.
Qed.

Lemma matched_once_id item : BatchItem.id (matched_once item) = BatchItem.id item.
Proof. cbv beta. by destruct (InstancesPage.eligible item). Qed.

Lemma matched_once_twice item : matched_once (matched_once item) = matched_once item.
Proof.
  cbv beta. destruct (InstancesPage.eligible item) eqn:Hm; [|by rewrite Hm].
  unfold InstancesPage.eligible in Hm. apply andb_true_iff in Hm as [Hsel _].
  unfold InstancesPage.verdict, InstancesPage.candidates, InstancesPage.eligible.
  destruct item as [i sel dir execs exec bottle st m rs manual]. simpl in *. subst sel.
  destruct (match get_directory_keywords exec with
            | Some keywords => InstancesPage.fetchGameResults search_game keywords
            | None => []
            end) as [|first rest] eqn:Hc; simpl; [|reflexivity].
  by rewrite Hc.
Qed.

(** X17. With unique item ids and a back end that answers the same
    again, matching a second time changes nothing; and after a
    matching no selected item is left pending or matching that was not
    matching before. *)
Theorem batch_matching_settles batchItems :
  NoDup (BatchItem.id <$> batchItems) ->
  let once := InstancesPage.run (matching batchItems) batchItems in
  InstancesPage.run (matching once) once = once /\
  Forall (fun item => BatchItem.selected item = true ->
                      BatchItem.status item ≠ BatchItem.pending) once /\
  (forall k before after,
     batchItems !! k = Some before -> once !! k = Some after ->
     BatchItem.status after = BatchItem.matching ->
     BatchItem.status before = BatchItem.matching).
Proof.
  intros Hnd once.
  assert (Honce : once = matched_once <$> batchItems) by (by apply run_matching).
  split; [|split].
  - rewrite run_matching.
    + rewrite Honce, <- list_fmap_compose. apply list_fmap_ext.
      intros k item _. apply matched_once_twice.
    + rewrite Honce, <- list_fmap_compose.
      erewrite list_fmap_ext; [exact Hnd|]. intros k item _. apply matched_once_id.
  - rewrite Honce. apply Forall_fmap, Forall_forall. intros item _. simpl.
    unfold InstancesPage.eligible, InstancesPage.verdict.
    destruct (BatchItem.selected item) eqn:Hsel; simpl.
    + destruct (BatchItem.status item) eqn:Hst; simpl; try (by rewrite ?Hst);
        by destruct (InstancesPage.candidates _ _ item).
    + by rewrite Hsel.
  - intros k before after Hb Ha. rewrite Honce, list_lookup_fmap, Hb in Ha.
    simplify_eq/=. unfold InstancesPage.eligible, InstancesPage.verdict.
    destruct (BatchItem.selected before), (BatchItem.status before) eqn:Hst; simpl;
      rewrite ?Hst; try done;
      by destruct (InstancesPage.candidates _ _ before).
Qed.
End MatchingTwice.

Lemma batch_matching_settles_witness :
  let once := InstancesPage.run
                (InstancesPage.handleStartBatchMatching Searches.get_directory_keywords
                   Searches.search_game Batches.three) Batches.three in
  InstancesPage.run
    (InstancesPage.handleStartBatchMatching Searches.get_directory_keywords
       Searches.search_game once) once = once /\
  Forall (fun item => BatchItem.selected item = true ->
                      BatchItem.status item ≠ BatchItem.pending) once /\
  (forall k before after,
     Batches.three !! k = Some before -> once !! k = Some after ->
     BatchItem.status after = BatchItem.matching ->
     BatchItem.status before = BatchItem.matching).
Proof.
  apply (batch_matching_settles Searches.get_directory_keywords Searches.search_game
           Batches.three).
  apply (bool_decide_unpack _). vm_compute. reflexivity.
Defined.

(** ** Scan, select, commit *)

Lemma filter_Forall_id {A} (P : A -> Prop) `{forall x, Decision (P x)} (l : list A) :
  Forall P l -> filter P l = l.
Proof.
  induction 1 as [|x l Hx _ IH]; [done|].
  by rewrite filter_cons, decide_True, IH.
Qed.

Lemma filter_Forall_not {A} (P : A -> Prop) `{forall x, Decision (P x)} (l : list A) :
  Forall (fun x => ¬ P x) l -> filter P l = [].
Proof.
  induction 1 as [|x l Hx _ IH]; [done|].
  by rewrite filter_cons, decide_False.
Qed.

Lemma scan_items (u : nat -> string) (h : nat -> nat) defaultBottle bottles dirs :
  Forall (fun d => ImportPage.dir_executables d ≠ []) dirs ->
  mapM (fun kd : nat * ImportPage.ScannedDir =>
          ImportPage.scanItem (u kd.1) defaultBottle bottles kd.2)
       (imap (fun k d => (h k, d)) dirs)
  = Some (imap (fun k d =>
                  BatchItem.mk (u (h k)) true (ImportPage.dir_name d)
                    (ImportPage.dir_executables d)
                    (default "" (head (ImportPage.dir_executables d)))
                    (JS.or_string (JS.or_else defaultBottle (head bottles)) "Default")
                    BatchItem.pending None [] empty_partial) dirs).
Proof.
  intros Hd.
  set (f := fun kd : nat * ImportPage.ScannedDir =>
              ImportPage.scanItem (u kd.1) defaultBottle bottles kd.2).
  revert h. induction Hd as [|d dirs Hx _ IH]; intros h; [done|].
  rewrite !imap_cons. cbn [mapM].
  specialize (IH (h ∘ S)). unfold compose in *. rewrite IH.
  subst f. cbn [fst snd]. unfold ImportPage.scanItem.
  by destruct (ImportPage.dir_executables d).
Qed.

Lemma or_string_filled_default a d : d ≠ "" -> JS.or_string a d ≠ "".
Proof.
  intros Hd. unfold JS.or_string, JS.or_else, JS.truthy.
  destruct a as [v|]; [|done]. by destruct (String.eqb_spec v "").
Qed.

(** X18. A scan that finds directories, each with an executable, opens
    the batch with one item per directory, in order: selected, pending,
    open to matching, with the first executable chosen and a bottle
    name that is never empty.  Committing that batch as it stands
    appends one instance per directory to the catalogue, named after
    the directory, with no note, no image and no play statistics. *)
Theorem scan_then_commit randomUUID randomUUID' defaultBottle bottles path scan dirs
    instances st :
  path ≠ "" -> scan path = Some dirs -> dirs ≠ [] ->
  Forall (fun d => ImportPage.dir_executables d ≠ []) dirs ->
  let bottle := JS.or_string (JS.or_else defaultBottle (head bottles)) "Default" in
  exists items,
    ImportPage.handleBatchImportClick randomUUID defaultBottle bottles (Some path) scan st
    = Some (InstancesPage.mkOutcome (InstancesPage.mkBatch items true) [] []) /\
    BatchItem.id <$> items = randomUUID <$> seq 0 (length dirs) /\
    BatchItem.dirName <$> items = ImportPage.dir_name <$> dirs /\
    Forall (fun item => InstancesPage.eligible item = true /\
                        BatchItem.status item = BatchItem.pending /\
                        head (BatchItem.executables item) = Some (BatchItem.selectedExec item) /\
                        BatchItem.bottleName item = bottle) items /\
    bottle ≠ "" /\
    InstancesPage.calls
      (InstancesPage.handleConfirmBatchImport randomUUID' instances
         (InstancesPage.mkBatch items true))
    = [instances ++
       imap (fun k d =>
               mkGameInstance (randomUUID' k) (ImportPage.dir_name d) "" bottle
                 (default "" (head (ImportPage.dir_executables d)))
                 None None None None) dirs].
Proof.
  intros Hpath Hscan Hdirs Hexec bottle.
  eexists. split; [|split; [|split; [|split; [|split]]]].
  - unfold ImportPage.handleBatchImportClick. simpl.
    destruct (String.eqb_spec path "") as [|_]; [done|]. simpl. rewrite Hscan.
    destruct (Nat.eqb_spec (length dirs) 0) as [E|_]; [by apply nil_length_inv in E|].
    change (imap pair dirs) with (imap (fun k d => (Datatypes.id k, d)) dirs).
    rewrite (scan_items randomUUID Datatypes.id) by done. reflexivity.
  - apply list_eq. intros k.
    rewrite !list_lookup_fmap, list_lookup_imap.
    destruct (dirs !! k) as [d|] eqn:Hk; simpl.
    + apply lookup_lt_Some in Hk. by rewrite lookup_seq_lt.
    + apply lookup_ge_None in Hk. by rewrite lookup_seq_ge.
  - apply list_eq. intros k.
    rewrite !list_lookup_fmap, list_lookup_imap. by destruct (dirs !! k).
  - apply Forall_forall. intros item Hin.
    apply elem_of_lookup_imap_1 in Hin as (k & d & -> & Hk). simpl.
    rewrite Forall_forall in Hexec.
    assert (Hd : d ∈ dirs) by (by eapply list_elem_of_lookup_2).
    specialize (Hexec d Hd).
    by destruct (ImportPage.dir_executables d).
  - by apply or_string_filled_default.
  - unfold InstancesPage.handleConfirmBatchImport. simpl.
    rewrite filter_Forall_id.
    2: { apply Forall_forall. intros item Hin.
         by apply elem_of_lookup_imap_1 in Hin as (k & d & -> & Hk). }
    rewrite length_imap.
    destruct (Nat.eqb_spec (length dirs) 0) as [E|_]; [by apply nil_length_inv in E|].
    simpl. do 2 f_equal. apply list_eq. intros k.
    rewrite !list_lookup_imap. by destruct (dirs !! k).
Qed.

Lemma scan_then_commit_witness :
  let bottle := JS.or_string (JS.or_else None (head ["Steam"])) "Default" in
  exists items,
    ImportPage.handleBatchImportClick Batches.randomUUID None ["Steam"] (Some "/games")
      Scans.scan Scans.closed
    = Some (InstancesPage.mkOutcome (InstancesPage.mkBatch items true) [] []) /\
    BatchItem.id <$> items = Batches.randomUUID <$> seq 0 (length Scans.dirs) /\
    BatchItem.dirName <$> items = ImportPage.dir_name <$> Scans.dirs /\
    Forall (fun item => InstancesPage.eligible item = true /\
                        BatchItem.status item = BatchItem.pending /\
                        head (BatchItem.executables item) = Some (BatchItem.selectedExec item) /\
                        BatchItem.bottleName item = bottle) items /\
    bottle ≠ "" /\
    InstancesPage.calls
      (InstancesPage.handleConfirmBatchImport Batches.randomUUID [Examples.A]
         (InstancesPage.mkBatch items true))
    = [[Examples.A] ++
       imap (fun k d =>
               mkGameInstance (Batches.randomUUID k) (ImportPage.dir_name d) "" bottle
                 (default "" (head (ImportPage.dir_executables d)))
                 None None None None) Scans.dirs].
Proof.
  apply (scan_then_commit Batches.randomUUID Batches.randomUUID None ["Steam"] "/games"
           Scans.scan Scans.dirs [Examples.A] Scans.closed).
  - done.
  - reflexivity.
  - done.
  - by repeat constructor.
Defined.

Lemma itemsToMatch_unselected items :
  InstancesPage.itemsToMatch (ImportPage.toggleSelectAll false items) = [].
Proof.
  unfold InstancesPage.itemsToMatch, ImportPage.toggleSelectAll.
  apply filter_Forall_not, Forall_fmap, Forall_forall. by intros item _.
Qed.

(** X19. Ticking "select all" selects every item, so the box shows
    ticked exactly when there are items; clearing it deselects every
    item, after which a commit is refused with an error and nothing
    passed on, and a matching leaves every item as it is.  Neither
    changes the ids or the order of the items. *)
Theorem select_all_then_act checked items :
  (ImportPage.isAllSelected (ImportPage.toggleSelectAll true items) = true
   <-> items ≠ []) /\
  ImportPage.isAllSelected (ImportPage.toggleSelectAll false items) = false /\
  BatchItem.id <$> ImportPage.toggleSelectAll checked items = BatchItem.id <$> items /\
  (forall randomUUID instances open,
     let st := InstancesPage.mkBatch (ImportPage.toggleSelectAll false items) open in
     let o := InstancesPage.handleConfirmBatchImport randomUUID instances st in
     InstancesPage.calls o = [] /\ InstancesPage.toasts o = [App.error] /\
     InstancesPage.batch o = st) /\
  (forall get_directory_keywords search_game,
     InstancesPage.run
       (InstancesPage.handleStartBatchMatching get_directory_keywords search_game
          (ImportPage.toggleSelectAll false items))
       (ImportPage.toggleSelectAll false items)
     = ImportPage.toggleSelectAll false items).
Proof.
  split; [|split; [|split; [|split]]].
  - unfold ImportPage.isAllSelected, ImportPage.toggleSelectAll.
    rewrite length_fmap. destruct items as [|x items]; [done|].
    split; [done|]. intros _. simpl. apply forallb_forall.
    intros item Hin. apply list_elem_of_In, list_elem_of_fmap in Hin as (y & -> & _).
    reflexivity.
  - unfold ImportPage.isAllSelected, ImportPage.toggleSelectAll.
    by destruct items.
  - unfold ImportPage.toggleSelectAll. rewrite <- list_fmap_compose.
    by apply list_fmap_ext.
  - intros randomUUID instances open st o. subst o st.
    unfold InstancesPage.handleConfirmBatchImport. simpl.
    rewrite filter_Forall_not; [done|].
    unfold ImportPage.toggleSelectAll. apply Forall_fmap, Forall_forall.
    by intros item _.
  - intros gk sg. unfold InstancesPage.handleStartBatchMatching.
    rewrite itemsToMatch_unselected. unfold InstancesPage.run. simpl.
    unfold InstancesPage.markMatching. simpl. apply list_fmap_id.
Qed.

(** ** Single import and edit on the import page *)

Lemma find_id_None (x : string) (l : list GameInstance) :
  x ∉ id <$> l -> List.find (fun i => String.eqb (id i) x) l = None.
Proof.
  intros Hx. induction l as [|i l IH]; [done|]. simpl.
  rewrite fmap_cons, not_elem_of_cons in Hx. destruct Hx as [Hi Hl].
  destruct (String.eqb_spec (id i) x) as [E|_]; [by subst|]. by apply IH.
Qed.

Lemma find_id_Some (x : string) (l : list GameInstance) :
  x ∈ id <$> l -> is_Some (List.find (fun i => String.eqb (id i) x) l).
Proof.
  intros Hx. induction l as [|i l IH]; [by apply elem_of_nil in Hx|]. simpl.
  destruct (String.eqb_spec (id i) x) as [E|Hne]; [by eexists|].
  apply IH. rewrite fmap_cons in Hx. apply elem_of_cons in Hx as [?|?]; [by subst|done].
Qed.



Lemma typing_v2_snoc edits e st :
  ImportPage.typing (edits ++ [e]) st
  = ImportPage.editField e.1 e.2 (ImportPage.typing edits st).
Proof. unfold ImportPage.typing. by rewrite foldl_app. Qed.

(** What typing keeps of the form the settings button opened. *)
Lemma typing_v2_edit_form inst st0 edits :
  let fd := ImportPage.formData (ImportPage.typing edits (ImportPage.openEdit inst st0)) in
  exists new,
    ImportPage.as_GameInstance fd = Some new /\
    p_name fd = Some (name new) /\ p_executablePath fd = Some (executablePath new) /\
    id new = id inst /\
    lastPlayed new = lastPlayed inst /\ totalPlayTime new = totalPlayTime inst /\
    playHistory new = playHistory inst.
Proof.
  induction edits as [|e edits IH] using rev_ind; [by eexists|].
  rewrite typing_v2_snoc. destruct IH as (new & Hnew & Hn & Hp & Hrest).
  cbn [ImportPage.editField ImportPage.formData].
  unfold ImportPage.as_GameInstance in *.
  destruct (ImportPage.formData (ImportPage.typing edits (ImportPage.openEdit inst st0)))
    as [[i|] [n|] [inf|] [b|] [ex|] bg lp tp ph];
    destruct new as [ni nn ninf nb ne nbg nlp ntp nph]; simpl in *; try done.
  injection Hnew as -> _ -> -> _ -> -> -> ->.
  destruct Hrest as (Hi & Hl & Ht & Hh).
  destruct e as [[] v]; simpl; (eexists; split; [reflexivity|]); by repeat split.
Qed.

(** X21. Saving the form the settings button opened, whatever was typed
    into it, is refused when name or path is empty; otherwise it puts
    the form in the place of every entry with the id of the instance
    opened and leaves the others as they are, or appends the form when
    no entry has that id.  The entry saved keeps that id and carries
    the play statistics the instance had when the form was opened. *)
Theorem edit_save_replaces_by_form inst st0 edits instances :
  let st := ImportPage.typing edits (ImportPage.openEdit inst st0) in
  exists o new,
    ImportPage.handleSave instances st = Some o /\
    ImportPage.as_GameInstance (ImportPage.formData st) = Some new /\
    id new = id inst /\
    lastPlayed new = lastPlayed inst /\ totalPlayTime new = totalPlayTime inst /\
    playHistory new = playHistory inst /\
    (((name new = "" \/ executablePath new = "") /\
      ImportPage.calls o = [] /\ ImportPage.toasts o = [App.error] /\
      ImportPage.state o = st) \/
     (name new ≠ "" /\ executablePath new ≠ "" /\
      ImportPage.toasts o = [App.success] /\
      ImportPage.selectedId (ImportPage.state o) = None /\
      ImportPage.importState (ImportPage.state o) = ImportPage.none /\
      exists l',
        ImportPage.calls o = [l'] /\
        (id inst ∈ id <$> instances ->
         Forall2 (fun i i' => if decide (id i = id inst) then i' = new else i' = i)
                 instances l') /\
        (id inst ∉ id <$> instances -> l' = instances ++ [new]))).
Proof.
  intros st.
  destruct (typing_v2_edit_form inst st0 edits) as (new & Hnew & Hn & Hp & Hid & Hstats).
  fold st in Hnew, Hn, Hp.
  unfold ImportPage.handleSave. rewrite Hn, Hp, Hnew. simpl.
  destruct (String.eqb_spec (name new) "") as [En|En]; simpl.
  { eexists _, new. split; [reflexivity|]. do 4 (split; [tauto|]). split; [tauto|].
    left. by auto. }
  destruct (String.eqb_spec (executablePath new) "") as [Ep|Ep]; simpl.
  { eexists _, new. split; [reflexivity|]. do 4 (split; [tauto|]). split; [tauto|].
    left. by auto. }
  eexists _, new. split; [reflexivity|]. do 4 (split; [tauto|]). split; [tauto|].
  right. do 5 (split; [done|]). eexists. split; [reflexivity|]. rewrite Hid. split.
  - intros Hin. destruct (find_id_Some _ _ Hin) as [x ->].
    apply Forall2_fmap_r, Forall2_same_length_lookup_2; [done|].
    intros k i i' Hi1 Hi2. simplify_eq. unfold compose.
    destruct (String.eqb_spec (id i) (id inst)); by destruct (decide _).
  - intros Hout. by rewrite find_id_None.
Qed.

(** X22. On the import page, opening an instance, pressing delete and
    confirming removes every entry with the id of that instance and no
    other, the same list the editor's delete passes on, closes the
    dialog and clears the selection; when no entry has that id the
    confirmation does nothing and the dialog stays open. *)
Theorem delete_from_form inst instances st0 page :
  id inst ≠ "" ->
  let o := ImportPage.handleDelete instances
             (ImportPage.askDelete instances (ImportPage.openEdit inst st0)) in
  (id inst ∈ id <$> instances ->
   ImportPage.calls o = [filter (fun i => id i ≠ id inst) instances] /\
   ImportPage.calls o
   = InstancesPageV1.calls (InstancesPageV1.confirmDelete instances inst page) /\
   ImportPage.toasts o = [App.success] /\
   ImportPage.deleteModal (ImportPage.state o) = ImportPage.mkDeleteModal false None /\
   ImportPage.selectedId (ImportPage.state o) = None /\
   ImportPage.importState (ImportPage.state o) = ImportPage.none) /\
  (id inst ∉ id <$> instances ->
   ImportPage.calls o = [] /\ ImportPage.toasts o = [] /\
   ImportPage.deleteModal (ImportPage.state o) = ImportPage.mkDeleteModal true None).
Proof.
  intros Hid o. subst o. unfold ImportPage.askDelete, ImportPage.handleDelete. simpl.
  destruct (String.eqb_spec (id inst) "") as [|_]; [done|]. simpl. split.
  - intros Hin. destruct (find_id_Some _ _ Hin) as [x Hx]. rewrite Hx.
    apply find_some in Hx as [_ Hx]. apply String.eqb_eq in Hx. simpl.
    by rewrite Hx.
  - intros Hout. by rewrite find_id_None.
Qed.

Lemma delete_from_form_witness :
  let o := ImportPage.handleDelete [Examples.B; Examples.A]
             (ImportPage.askDelete [Examples.B; Examples.A]
                (ImportPage.openEdit Examples.A Scans.searching)) in
  (id Examples.A ∈ id <$> [Examples.B; Examples.A] ->
   ImportPage.calls o = [filter (fun i => id i ≠ id Examples.A) [Examples.B; Examples.A]] /\
   ImportPage.calls o
   = InstancesPageV1.calls
       (InstancesPageV1.confirmDelete [Examples.B; Examples.A] Examples.A
          (System.page Runs.created)) /\
   ImportPage.toasts o = [App.success] /\
   ImportPage.deleteModal (ImportPage.state o) = ImportPage.mkDeleteModal false None /\
   ImportPage.selectedId (ImportPage.state o) = None /\
   ImportPage.importState (ImportPage.state o) = ImportPage.none) /\
  (id Examples.A ∉ id <$> [Examples.B; Examples.A] ->
   ImportPage.calls o = [] /\ ImportPage.toasts o = [] /\
   ImportPage.deleteModal (ImportPage.state o) = ImportPage.mkDeleteModal true None).
Proof.
  apply (delete_from_form Examples.A [Examples.B; Examples.A] Scans.searching
           (System.page Runs.created)).
  done.
Defined.


